(** * Sonobuoy image commands: a shallow embedding and its properties

    The development models two Go files of the repository:
    - [pkg/image] docker helpers ([SaveToTar], [PullImage], [DeleteImage],
      [GetImages], [TagImage], [PushImage], [GetTarFileName]);
    - [cmd/sonobuoy/app] ([listImages], [pullImages], [downloadImages],
      [pushImages], [deleteImages], [AddE2EConfigFlags] and [GetE2EConfig]).

    Go strings and byte slices are Rocq strings (sequences of 8-bit
    characters), Go maps are [gmap]s whose iteration order is chosen by
    the runtime, errors are values with a cause chain as in [pkg/errors],
    and every effect (file system, engine call, stream read, output,
    process exit) is threaded through an explicit [World]. *)

From Stdlib Require Import NArith Ascii Lia ZifyN.
From stdpp Require Import base gmap strings list.

(** ** Errors *)

(** Go [error] values.  [ErrWrap] is [errors.Wrap]/[errors.Wrapf]: it keeps
    the cause and prefixes the message. *)
Inductive error :=
| EOF
| ErrNotExist (op path : string)
| ErrNew (msg : string)
| ErrWrap (cause : error) (msg : string).

Fixpoint Error (e : error) : string :=
  match e with
  | EOF => "EOF"
  | ErrNotExist op path => op +:+ " " +:+ path +:+ ": no such file or directory"
  | ErrNew msg => msg
  | ErrWrap cause msg => msg +:+ ": " +:+ Error cause
  end.

Fixpoint Cause (e : error) : error :=
  match e with
  | ErrWrap cause _ => Cause cause
  | _ => e
  end.

Definition os_IsNotExist (e : option error) : bool :=
  match e with
  | Some (ErrNotExist _ _) => true
  | _ => false
  end.

Definition ErrShortWrite : error := ErrNew "short write".

Global Instance error_eq_dec : EqDecision error.
Proof. solve_decision. Defined.

(** ** Streams returned by the engine *)

(** One call of [Read]: the bytes delivered and the error returned with
    them ([None] is Go's [nil], [Some EOF] is [io.EOF]). *)
Definition ReadResult : Type := string * option error.

(** An [io.ReadCloser] is the script of the results its future [Read]
    calls return; an exhausted script keeps answering [(0, io.EOF)]. *)
Definition Reader : Type := list ReadResult.

(** ** The container engine *)

Record ImageDeleteResponseItem := {
  Deleted : string;
  Untagged : string;
}.

Record AuthConfig := {
  Username : string;
  Password : string;
}.

(** The docker client: what the daemon answers to each request. *)
Record Engine := {
  engine_ImageSave : list string → error + Reader;
  engine_ImagePull : string → error + Reader;
  engine_ImageTag : string → string → option error;
  engine_ImagePush : string → string → error + Reader;
  engine_ImageRemove : string → error + list ImageDeleteResponseItem;
}.

Inductive EngineCall :=
| ImageSaveCall (images : list string)
| ImagePullCall (ref : string)
| ImageTagCall (source target : string)
| ImagePushCall (ref : string) (RegistryAuth : string)
| ImageRemoveCall (ref : string).

Global Instance EngineCall_eq_dec : EqDecision EngineCall.
Proof. solve_decision. Defined.

(** ** The world *)

Inductive Event :=
| EvStat (path : string)
| EvReadFile (path : string)
| EvCreate (path : string)
| EvWrite (path : string) (n : nat)
| EvRead (r : ReadResult)
| EvVersion
| EvEngine (c : EngineCall)
| EvStdout (text : string)
| EvLogError (e : error).

Record World := {
  fs : gmap string string;    (* regular files and their contents *)
  fs_denied : gset string;    (* paths at which no file can be created *)
  disk_free : nat;            (* bytes the disk still accepts *)
  trace : list Event;         (* effects so far, oldest first *)
}.

Definition emit_world (e : Event) (w : World) : World :=
  {| fs := fs w; fs_denied := fs_denied w; disk_free := disk_free w;
     trace := trace w ++ [e] |}.

(** ** The effect monad: state passing with [os.Exit] *)

Inductive Outcome (A : Type) :=
| Done (a : A)
| Exited (code : Z).
Arguments Done {A} a.
Arguments Exited {A} code.

Definition M (A : Type) : Type := World → Outcome A * World.

Global Instance M_ret : MRet M := λ A a w, (Done a, w).

Global Instance M_bind : MBind M := λ A B f m w,
  match m w with
  | (Done a, w') => f a w'
  | (Exited code, w') => (Exited code, w')
  end.

Definition emit (e : Event) : M unit := λ w, (Done tt, emit_world e w).

Definition os_Exit {A} (code : Z) : M A := λ w, (Exited code, w).

(** [for _, x := range l { body }] once the iteration order [l] is fixed. *)
Fixpoint forM_ {A} (l : list A) (body : A → M unit) : M unit :=
  match l with
  | [] => mret tt
  | x :: l' => body x;; forM_ l' body
  end.

(** ** Operating system and standard library *)

Definition nl : string := String (ascii_of_nat 10) EmptyString.

Definition fmt_Println (s : string) : M unit := emit (EvStdout (s +:+ nl)).
Definition fmt_Print (s : string) : M unit := emit (EvStdout s).

(** [errlog.LogError] *)
Definition LogError (e : error) : M unit := emit (EvLogError e).

(** [os.Stat]: only existence is observed by the callers. *)
Definition os_Stat (path : string) : M (option error) := λ w,
  (Done (match fs w !! path with
         | Some _ => None
         | None => Some (ErrNotExist "stat" path)
         end),
   emit_world (EvStat path) w).

(** [ioutil.ReadFile] *)
Definition ioutil_ReadFile (path : string) : M (error + string) := λ w,
  (Done (match fs w !! path with
         | Some contents => inr contents
         | None => inl (ErrNotExist "open" path)
         end),
   emit_world (EvReadFile path) w).

(** An open [os.File], written sequentially from offset 0. *)
Definition File : Type := string.

(** [os.Create]: [O_RDWR|O_CREATE|O_TRUNC]. *)
Definition os_Create (path : string) : M (error + File) := λ w,
  if decide (path ∈ fs_denied w) then
    (Done (inl (ErrNew ("open " +:+ path +:+ ": permission denied"))),
     emit_world (EvCreate path) w)
  else
    (Done (inr path),
     {| fs := <[path := EmptyString]> (fs w); fs_denied := fs_denied w;
        disk_free := disk_free w; trace := trace w ++ [EvCreate path] |}).

(** [Write] on an [os.File]: the bytes that fit are appended; a full disk gives
    a short count together with an error. *)
Definition file_Write (f : File) (b : string) : M (nat * option error) := λ w,
  let n := String.length b `min` disk_free w in
  let w' := {| fs := alter (λ c, c +:+ String.substring 0 n b) f (fs w);
               fs_denied := fs_denied w;
               disk_free := disk_free w - n;
               trace := trace w ++ [EvWrite f n] |} in
  (Done (n, if decide (n < String.length b)
            then Some (ErrNew ("write " +:+ f +:+ ": no space left on device"))
            else None),
   w').

(** [io.Copy]: read a chunk, write it, stop at the first write error, short
    write, read error or end of stream. *)
Fixpoint io_Copy (dst : File) (src : Reader) : M (option error * Reader) :=
  match src with
  | [] => emit (EvRead (EmptyString, Some EOF));; mret (None, [])
  | (data, er) :: rest =>
      emit (EvRead (data, er));;
      ew ← (if decide (0 < String.length data) then
              '(nw, ew) ← file_Write dst data;
              match ew with
              | Some e => mret (Some e)
              | None => if decide (String.length data ≠ nw)
                        then mret (Some ErrShortWrite) else mret None
              end
            else mret None);
      match ew with
      | Some e => mret (Some e, rest)
      | None =>
          match er with
          | Some EOF => mret (None, rest)
          | Some e => mret (Some e, rest)
          | None => io_Copy dst rest
          end
      end
  end.

(** [ioutil.ReadAll]: read until end of stream or error. *)
Fixpoint ioutil_ReadAll (r : Reader) : M (string * option error * Reader) :=
  match r with
  | [] => emit (EvRead (EmptyString, Some EOF));; mret (EmptyString, None, [])
  | (data, er) :: rest =>
      emit (EvRead (data, er));;
      match er with
      | Some EOF => mret (data, None, rest)
      | Some e => mret (data, Some e, rest)
      | None =>
          '(more, e, r') ← ioutil_ReadAll rest;
          mret (data +:+ more, e, r')
      end
  end.

(** ** The docker client calls, with their trace *)

Definition cli_ImageSave (cli : Engine) (images : list string) : M (error + Reader) :=
  emit (EvEngine (ImageSaveCall images));; mret (engine_ImageSave cli images).

Definition cli_ImagePull (cli : Engine) (ref : string) : M (error + Reader) :=
  emit (EvEngine (ImagePullCall ref));; mret (engine_ImagePull cli ref).

Definition cli_ImageTag (cli : Engine) (source target : string) : M (option error) :=
  emit (EvEngine (ImageTagCall source target));; mret (engine_ImageTag cli source target).

Definition cli_ImagePush (cli : Engine) (ref auth : string) : M (error + Reader) :=
  emit (EvEngine (ImagePushCall ref auth));; mret (engine_ImagePush cli ref auth).

Definition cli_ImageRemove (cli : Engine) (ref : string)
  : M (error + list ImageDeleteResponseItem) :=
  emit (EvEngine (ImageRemoveCall ref));; mret (engine_ImageRemove cli ref).

(** ** [pkg/image]: SaveToTar *)

(** [defer file.Close()] has no effect that the model observes. *)
Definition SaveToTar (cli : Engine) (images : list string) (filepath : string)
  : M (option error) :=
  r ← os_Create filepath;
  match r with
  | inl err =>
      mret (Some (ErrWrap err ("Could not create tarball file '" +:+ filepath +:+ "'")))
  | inr file =>
      r ← cli_ImageSave cli images;
      match r with
      | inl err => mret (Some (ErrWrap err "error saving images to tar"))
      | inr out =>
          '(err, out) ← io_Copy file out;
          match err with
          | Some err =>
              mret (Some (ErrWrap err
                ("Could not copy the file '" +:+ filepath +:+ "' data to the tarball")))
          | None =>
              (* Wait for all data to complete *)
              '(_, err, _) ← ioutil_ReadAll out;
              match err with
              | Some err => mret (Some (ErrWrap err "error exporting images"))
              | None => mret None
              end
          end
      end
  end.

(** ** Image configurations *)

(** Modelled from the spec: the [Config] type of [pkg/image] and its method
    [GetE2EImage] are declared in a file of the package that is not among
    the sources.  Spec, section 3: an image configuration has a logical
    name, a registry host, a repository path and a tag, and its full
    reference is registryHost + "/" + repositoryPath + ":" + tag. *)
Record Config := {
  logicalName : string;
  registryHost : string;
  repositoryPath : string;
  tag : string;
}.

Definition GetE2EImage (c : Config) : string :=
  registryHost c +:+ "/" +:+ repositoryPath c +:+ ":" +:+ tag c.

(** Go's zero value of a struct of strings: what [m[k]] yields when [k]
    is not a key of the map [m]. *)
Global Instance Config_inhabited : Inhabited Config :=
  populate {| logicalName := EmptyString; registryHost := EmptyString;
              repositoryPath := EmptyString; tag := EmptyString |}.

Global Instance Config_eq_dec : EqDecision Config.
Proof. solve_decision. Defined.

(** [for k, v := range m] visits every entry of the map once, in an order
    that the Go runtime chooses: any permutation of the entries. *)
Record RangeOrder := {
  range : gmap string Config → list (string * Config);
  range_perm : ∀ m, range m ≡ₚ map_to_list m;
}.

(** Modelled from the spec: the registry list of [pkg/image]
    ([NewRegistryList], [GetImageConfigs]) is not among the sources.  Spec,
    section 4.2: a built-in table from logical name to registry host and
    repository path, overlaid by the override document. *)
Record RegistryList := {
  rl_table : gmap string (string * string);
  rl_version : string;
}.

(** [ops.E2EConfig] *)
Record E2EConfig := {
  Focus : string;
  Skip : string;
  Parallel : string;
  CustomRegistries : string;
}.

(** Modelled from the spec: the image set of a registry table at a version
    (spec, sections 3 and 4.2): one entry per logical name, each tagged
    with the version. *)
Definition resolve_images (table : gmap string (string * string)) (version : string)
  : gmap string Config :=
  map_imap (λ k '(host, path),
    Some {| logicalName := k; registryHost := host;
            repositoryPath := path; tag := version |}) table.

(** ** The environment of a run: external libraries and collaborators *)

Record Env := {
  (* encoding/json, gopkg.in/yaml.v2, docker's jsonmessage;
     DisplayJSONMessagesStream gives the error it reports, if any, and
     what it leaves of the stream it displays *)
  json_Marshal : AuthConfig → error + string;
  yaml_Unmarshal : string → error + gmap string string;
  DisplayJSONMessagesStream : Reader → option error * Reader;
  (* kubeconfig, sonobuoy client, cluster version, docker client *)
  kubeconfig_Get : option error;
  getSonobuoyClient : option error;
  sbc_Version : error + string;
  client_NewClientWithOpts : error + Engine;
  (* viper.Get("password") and terminal.ReadPassword *)
  viper_password : string;
  terminal_ReadPassword : error + string;
  (* mode.Get().E2EConfig of the client package *)
  mode_E2EConfig : string → E2EConfig;
  (* iteration order of Go maps *)
  range_order : RangeOrder;
  (* the built-in registry table, the overlay of an override document on
     it and the versions it has image sets for (spec, sections 4.1, 4.2) *)
  default_table : gmap string (string * string);
  apply_override : gmap string string → gmap string (string * string)
                   → gmap string (string * string);
  valid_version : string → bool;
}.

(** ** [encoding/base64]: [URLEncoding.EncodeToString] *)

Definition encodeURL : string :=
  "ABCDEFGHIJKLMNOPQRSTUVWXYZabcdefghijklmnopqrstuvwxyz0123456789-_".

Definition padChar : ascii := "="%char.

(** [enc.encode[i]] *)
Definition encode_at (i : N) : ascii :=
  match String.get (N.to_nat i) encodeURL with
  | Some c => c
  | None => zero
  end.

Definition uint (c : ascii) : N := N_of_ascii c.

Fixpoint EncodeToString (src : string) : string :=
  match src with
  | String s0 (String s1 (String s2 rest)) =>
      let val := N.lor (N.lor (N.shiftl (uint s0) 16) (N.shiftl (uint s1) 8)) (uint s2) in
      String (encode_at (N.land (N.shiftr val 18) 63))
        (String (encode_at (N.land (N.shiftr val 12) 63))
          (String (encode_at (N.land (N.shiftr val 6) 63))
            (String (encode_at (N.land val 63))
              (EncodeToString rest))))
  | String s0 (String s1 EmptyString) =>
      let val := N.lor (N.shiftl (uint s0) 16) (N.shiftl (uint s1) 8) in
      String (encode_at (N.land (N.shiftr val 18) 63))
        (String (encode_at (N.land (N.shiftr val 12) 63))
          (String (encode_at (N.land (N.shiftr val 6) 63))
            (String padChar EmptyString)))
  | String s0 EmptyString =>
      let val := N.shiftl (uint s0) 16 in
      String (encode_at (N.land (N.shiftr val 18) 63))
        (String (encode_at (N.land (N.shiftr val 12) 63))
          (String padChar (String padChar EmptyString)))
  | EmptyString => EmptyString
  end.

(** The inverse table [enc.decodeMap] and the decoding of a padded text,
    four characters at a time, as the engine does on receipt. *)
Definition decode_at (c : ascii) : option N :=
  let n := uint c in
  if decide (65 ≤ n ≤ 90)%N then Some (n - 65)%N
  else if decide (97 ≤ n ≤ 122)%N then Some (n - 71)%N
  else if decide (48 ≤ n ≤ 57)%N then Some (n + 4)%N
  else if decide (n = 45)%N then Some 62%N
  else if decide (n = 95)%N then Some 63%N
  else None.

Definition byte_of (n : N) : ascii := ascii_of_N (N.land n 255).

Fixpoint DecodeString (s : string) : option string :=
  match s with
  | EmptyString => Some EmptyString
  | String c0 (String c1 (String c2 (String c3 rest))) =>
      d0 ← decode_at c0;
      d1 ← decode_at c1;
      if decide (c2 = padChar) then
        if decide (c3 = padChar ∧ rest = EmptyString) then
          let val := N.lor (N.shiftl d0 18) (N.shiftl d1 12) in
          Some (String (byte_of (N.shiftr val 16)) EmptyString)
        else None
      else
        d2 ← decode_at c2;
        if decide (c3 = padChar) then
          if decide (rest = EmptyString) then
            let val := N.lor (N.lor (N.shiftl d0 18) (N.shiftl d1 12)) (N.shiftl d2 6) in
            Some (String (byte_of (N.shiftr val 16))
                   (String (byte_of (N.shiftr val 8)) EmptyString))
          else None
        else
          d3 ← decode_at c3;
          let val := N.lor (N.lor (N.lor (N.shiftl d0 18) (N.shiftl d1 12))
                              (N.shiftl d2 6)) d3 in
          more ← DecodeString rest;
          Some (String (byte_of (N.shiftr val 16))
                 (String (byte_of (N.shiftr val 8))
                   (String (byte_of val) more)))
  | _ => None
  end.

Section WithEnv.
Variable env : Env.

(** ** [pkg/image]: the remaining docker helpers *)

Definition streamDockerMessages (src : Reader) : M (option error * Reader) :=
  mret (DisplayJSONMessagesStream env src).

(** [defer out.Close()] has no effect that the model observes. *)
Definition PullImage (cli : Engine) (img : Config) : M (option error) :=
  r ← cli_ImagePull cli (GetE2EImage img);
  match r with
  | inl err => mret (Some (ErrWrap err ("error pulling image: " +:+ GetE2EImage img)))
  | inr out =>
      (* Show status *)
      '(err, out) ← streamDockerMessages out;
      match err with
      | Some err => mret (Some (ErrWrap err ("error pulling image: " +:+ GetE2EImage img)))
      | None =>
          (* Wait for all data to complete *)
          '(_, err, _) ← ioutil_ReadAll out;
          match err with
          | Some err =>
              mret (Some (ErrWrap err ("error pulling image: " +:+ GetE2EImage img)))
          | None => mret None
          end
      end
  end.

Definition DeleteImage (cli : Engine) (img : Config)
  : M (list ImageDeleteResponseItem * option error) :=
  r ← cli_ImageRemove cli (GetE2EImage img);
  match r with
  | inl err => mret ([], Some (ErrWrap err ("error deleting image: " +:+ GetE2EImage img)))
  | inr out => mret (out, None)
  end.

(** Modelled from the spec: [NewRegistryList] is not among the sources.
    Spec, section 4.2 (Load): build the built-in table; if the override
    path is non-empty, read the file and parse it as a flat string mapping
    and overlay it; fail if the path is set but unreadable, or if the
    content does not parse. *)
Definition NewRegistryList (repoConfig k8sVersion : string) : M (error + RegistryList) :=
  if decide (repoConfig = EmptyString) then
    mret (inr {| rl_table := default_table env; rl_version := k8sVersion |})
  else
    r ← ioutil_ReadFile repoConfig;
    match r with
    | inl err => mret (inl err)
    | inr fileContent =>
        match yaml_Unmarshal env fileContent with
        | inl err => mret (inl err)
        | inr override =>
            mret (inr {| rl_table := apply_override env override (default_table env);
                         rl_version := k8sVersion |})
        end
    end.

(** Modelled from the spec: [GetImageConfigs] is not among the sources.
    Spec, sections 4.1 and 4.2: the tag of every entry is the version; a
    version that is not usable for tag lookup is an error. *)
Definition GetImageConfigs (reg : RegistryList) : error + gmap string Config :=
  if valid_version env (rl_version reg) then
    inr (resolve_images (rl_table reg) (rl_version reg))
  else inl (ErrNew ("No matching configuration for k8s version: " +:+ rl_version reg)).

Definition GetImages (e2eRegistryConfig version : string)
  : M (error + gmap string Config) :=
  (* Get list of upstream images that match the version *)
  r ← NewRegistryList e2eRegistryConfig version;
  match r with
  | inl err => mret (inl (ErrWrap err "couldn't init Registry List"))
  | inr reg =>
      match GetImageConfigs reg with
      | inl err => mret (inl (ErrWrap err "couldn't get images for version"))
      | inr imgs => mret (inr imgs)
      end
  end.

Definition TagImage (cli : Engine) (srcimg destimg : Config) : M (option error) :=
  fmt_Print ("Tagging image: " +:+ GetE2EImage srcimg +:+ " to "
             +:+ GetE2EImage destimg +:+ nl);;
  err ← cli_ImageTag cli (GetE2EImage srcimg) (GetE2EImage destimg);
  match err with
  | Some err => mret (Some (ErrWrap err ("error tagging image: " +:+ GetE2EImage destimg)))
  | None => mret None
  end.

Definition PushImage (cli : Engine) (img : Config) (auth : AuthConfig) : M (option error) :=
  match json_Marshal env auth with
  | inl err => mret (Some (ErrWrap err "error marshaling username/password"))
  | inr authBytes =>
      let authBase64 := EncodeToString authBytes in
      r ← cli_ImagePush cli (GetE2EImage img) authBase64;
      match r with
      | inl err => mret (Some (ErrWrap err ("error pushing image: " +:+ GetE2EImage img)))
      | inr out =>
          (* Show status *)
          '(err, out) ← streamDockerMessages out;
          match err with
          | Some err =>
              mret (Some (ErrWrap err ("error uploading image: " +:+ GetE2EImage img)))
          | None =>
              '(_, err, _) ← ioutil_ReadAll out;
              match err with
              | Some err =>
                  mret (Some (ErrWrap err ("error uploading image: " +:+ GetE2EImage img)))
              | None => mret None
              end
          end
      end
  end.

Definition GetTarFileName (version : string) : string :=
  "kubernetes_e2e_images_" +:+ version +:+ ".tar".

End WithEnv.

(** ** [cmd/sonobuoy/app]: the images commands *)

Record imagesFlags := {
  e2eRegistryConfig : string;
  plugin : string;
  username : string;
  password : string;
  imagesSaveFileName : string;
  downloadTar : bool;
}.

Section Commands.
Variable env : Env.

(** [sbc.Version()] asks the cluster. *)
Definition cluster_Version : M (error + string) :=
  emit EvVersion;; mret (sbc_Version env).

Definition listImages (imagesflags : imagesFlags) : M unit :=
  (if decide (0 < String.length (e2eRegistryConfig imagesflags)) then
     (* Check if the e2e file exists *)
     err ← os_Stat (e2eRegistryConfig imagesflags);
     if os_IsNotExist err then
       LogError (ErrNew ("file does not exist or cannot be opened: "
                         +:+ e2eRegistryConfig imagesflags));;
       os_Exit 1
     else mret tt
   else mret tt);;
  if decide (plugin imagesflags = "e2e") then
    match kubeconfig_Get env with
    | Some err => LogError (ErrWrap err "couldn't get REST client");; os_Exit 1
    | None =>
    match getSonobuoyClient env with
    | Some err => LogError (ErrWrap err "could not create sonobuoy client");; os_Exit 1
    | None =>
    r ← cluster_Version;
    match r with
    | inl err => LogError (ErrWrap err "couldn't get Sonobuoy client");; os_Exit 1
    | inr version =>
    (* Get list of images that match the version *)
    r ← NewRegistryList env EmptyString version;
    match r with
    | inl err => LogError (ErrWrap err "couldn't init Registry List");; os_Exit 1
    | inr registry =>
    match GetImageConfigs env registry with
    | inl err => LogError (ErrWrap err "couldn't get images for version");; os_Exit 1
    | inr images =>
        forM_ (range (range_order env) images)
              (λ '(_, v), fmt_Println (GetE2EImage v))
    end end end end end
  else
    LogError (ErrNew ("Unsupported plugin: " +:+ plugin imagesflags));; os_Exit 1.

(** The body of the loop of [pullImages]. *)
Definition pullImages_body (cli : Engine) (kv : string * Config) : M unit :=
  let '(_, v) := kv in
  err ← PullImage env cli v;
  match err with
  | Some err => LogError (ErrWrap err ("couldn't pull image: " +:+ GetE2EImage v))
  | None => mret tt
  end;;
  fmt_Println "########".

Definition pullImages (imagesflags : imagesFlags) : M unit :=
  if decide (plugin imagesflags = "e2e") then
    match kubeconfig_Get env with
    | Some err => LogError (ErrWrap err "couldn't get REST client");; os_Exit 1
    | None =>
    match getSonobuoyClient env with
    | Some err => LogError (ErrWrap err "could not create sonobuoy client");; os_Exit 1
    | None =>
    r ← cluster_Version;
    match r with
    | inl err => LogError (ErrWrap err "couldn't get Sonobuoy client");; os_Exit 1
    | inr version =>
    r ← GetImages env EmptyString version;
    match r with
    | inl err => LogError (ErrWrap err "couldn't init upstream registry list");; os_Exit 1
    | inr upstreamImages =>
    match client_NewClientWithOpts env with
    | inl err => LogError (ErrWrap err "couldn't init docker client");; os_Exit 1
    | inr cli =>
        forM_ (range (range_order env) upstreamImages) (pullImages_body cli)
    end end end end end
  else
    LogError (ErrNew ("Unsupported plugin: " +:+ plugin imagesflags));; os_Exit 1.

Definition downloadImages (imagesflags : imagesFlags) : M unit :=
  if decide (plugin imagesflags = "e2e") then
    match kubeconfig_Get env with
    | Some err => LogError (ErrWrap err "couldn't get REST client");; os_Exit 1
    | None =>
    match getSonobuoyClient env with
    | Some err => LogError (ErrWrap err "could not create sonobuoy client");; os_Exit 1
    | None =>
    r ← cluster_Version;
    match r with
    | inl err => LogError (ErrWrap err "couldn't get Sonobuoy client");; os_Exit 1
    | inr version =>
    r ← GetImages env EmptyString version;
    match r with
    | inl err => LogError (ErrWrap err "couldn't init upstream registry list");; os_Exit 1
    | inr upstreamImages =>
    match client_NewClientWithOpts env with
    | inl err => LogError (ErrWrap err "couldn't init docker client");; os_Exit 1
    | inr cli =>
        let images := (λ kv, GetE2EImage kv.2) <$> range (range_order env) upstreamImages in
        err ← SaveToTar cli images (GetTarFileName version);
        match err with
        | Some err => LogError (ErrWrap err "couldn't save images to tar");; os_Exit 1
        | None => mret tt
        end
    end end end end end
  else
    LogError (ErrNew ("Unsupported plugin: " +:+ plugin imagesflags));; os_Exit 1.

(** The body of the loop of [pushImages]; [privateImages !!! k] is Go's
    [privateImages[k]], the zero [Config] when [k] is not a key. *)
Definition pushImages_body (cli : Engine) (privateImages : gmap string Config)
    (auth : AuthConfig) (kv : string * Config) : M unit :=
  let '(k, v) := kv in
  err ← TagImage cli v (privateImages !!! k);
  match err with
  | Some err => LogError (ErrWrap err ("couldn't tag image: " +:+ GetE2EImage v))
  | None => mret tt
  end;;
  err ← PushImage env cli (privateImages !!! k) auth;
  match err with
  | Some err => LogError (ErrWrap err ("couldn't push image: " +:+ GetE2EImage v))
  | None => mret tt
  end;;
  fmt_Println "########".

Definition pushImages (imagesflags : imagesFlags) : M unit :=
  if decide (plugin imagesflags = "e2e") then
    (* Check if the e2e file exists *)
    err ← os_Stat (e2eRegistryConfig imagesflags);
    (if os_IsNotExist err then
       LogError (ErrNew ("file does not exist or cannot be opened: "
                         +:+ e2eRegistryConfig imagesflags));;
       os_Exit 1
     else mret tt);;
    (* Check if username if specified for registry auth *)
    password ←
      (if decide (0 < String.length (username imagesflags)) then
         (* Check if password was set via ENV variable, otherwise prompt *)
         let envPassword := viper_password env in
         if decide (String.length envPassword = 0) then
           fmt_Print "Registry password: ";;
           match terminal_ReadPassword env with
           | inl err =>
               LogError (ErrWrap err "couldn't get password from user");; os_Exit 1
           | inr bytePassword => fmt_Print nl;; mret bytePassword
           end
         else mret envPassword
       else mret (password imagesflags));
    match kubeconfig_Get env with
    | Some err => LogError (ErrWrap err "couldn't get REST client");; os_Exit 1
    | None =>
    match getSonobuoyClient env with
    | Some err => LogError (ErrWrap err "could not create sonobuoy client");; os_Exit 1
    | None =>
    r ← cluster_Version;
    match r with
    | inl err => LogError (ErrWrap err "couldn't get Sonobuoy client");; os_Exit 1
    | inr version =>
    r ← GetImages env EmptyString version;
    match r with
    | inl err => LogError (ErrWrap err "couldn't init upstream registry list");; os_Exit 1
    | inr upstreamImages =>
    r ← GetImages env (e2eRegistryConfig imagesflags) version;
    match r with
    | inl err => LogError (ErrWrap err "couldn't init upstream registry list");; os_Exit 1
    | inr privateImages =>
    match client_NewClientWithOpts env with
    | inl err => LogError (ErrWrap err "couldn't init docker client");; os_Exit 1
    | inr cli =>
        let auth := {| Username := username imagesflags; Password := password |} in
        forM_ (range (range_order env) upstreamImages)
              (pushImages_body cli privateImages auth)
    end end end end end end
  else
    LogError (ErrNew ("Unsupported plugin: " +:+ plugin imagesflags));; os_Exit 1.

(** The body of the loop of [deleteImages]. *)
Definition deleteImages_body (cli : Engine) (kv : string * Config) : M unit :=
  let '(_, v) := kv in
  '(resp, err) ← DeleteImage cli v;
  match err with
  | Some err => LogError (ErrWrap err ("couldn't delete image: " +:+ GetE2EImage v))
  | None => mret tt
  end;;
  forM_ resp (λ r,
    fmt_Print ("Deleted: " +:+ Deleted r +:+ nl);;
    if decide (0 < String.length (Untagged r))
    then fmt_Print ("Untagged: " +:+ Untagged r +:+ nl)
    else mret tt);;
  fmt_Println "########".

Definition deleteImages (imagesflags : imagesFlags) : M unit :=
  if decide (plugin imagesflags = "e2e") then
    match kubeconfig_Get env with
    | Some err => LogError (ErrWrap err "couldn't get REST client");; os_Exit 1
    | None =>
    match getSonobuoyClient env with
    | Some err => LogError (ErrWrap err "could not create sonobuoy client");; os_Exit 1
    | None =>
    r ← cluster_Version;
    match r with
    | inl err => LogError (ErrWrap err "couldn't get Sonobuoy client");; os_Exit 1
    | inr version =>
    r ← GetImages env (e2eRegistryConfig imagesflags) version;
    match r with
    | inl err => LogError (ErrWrap err "couldn't init upstream registry list");; os_Exit 1
    | inr upstreamImages =>
    match client_NewClientWithOpts env with
    | inl err => LogError (ErrWrap err "couldn't init docker client");; os_Exit 1
    | inr cli =>
        forM_ (range (range_order env) upstreamImages) (deleteImages_body cli)
    end end end end end
  else
    LogError (ErrNew ("Unsupported plugin: " +:+ plugin imagesflags));; os_Exit 1.

End Commands.

(** ** [cmd/sonobuoy/app]: GetE2EConfig *)

(** A flag of a [pflag.FlagSet]: its value type, its value and whether the
    command line set it. *)
Record Flag := {
  flag_type : string;
  flag_value : string;
  flag_changed : bool;
}.

Definition flags_Changed (flags : gmap string Flag) (name : string) : bool :=
  match flags !! name with
  | Some f => flag_changed f
  | None => false
  end.

Definition flags_GetString (flags : gmap string Flag) (name : string) : error + string :=
  match flags !! name with
  | None => inl (ErrNew ("flag accessed but not defined: " +:+ name))
  | Some f =>
      if decide (flag_type f = "string") then inr (flag_value f)
      else inl (ErrNew ("trying to get string value of flag of type " +:+ flag_type f))
  end.

Definition e2eFocusFlag : string := "e2e-focus".
Definition e2eSkipFlag : string := "e2e-skip".
Definition e2eParallelFlag : string := "e2e-parallel".
Definition e2eRegistryConfigFlag : string := "e2e-repo-config".

Section E2EConfig.
Variable env : Env.

Definition GetE2EConfig (mode : string) (flags : gmap string Flag) : M (error + E2EConfig) :=
  let cfg := mode_E2EConfig env mode in
  match (if flags_Changed flags e2eFocusFlag then
           match flags_GetString flags e2eFocusFlag with
           | inl err => inl (ErrWrap err "couldn't retrieve focus flag")
           | inr focus =>
               inr {| Focus := focus; Skip := Skip cfg; Parallel := Parallel cfg;
                      CustomRegistries := CustomRegistries cfg |}
           end
         else inr cfg) with
  | inl err => mret (inl err)
  | inr cfg =>
  match (if flags_Changed flags e2eSkipFlag then
           match flags_GetString flags e2eSkipFlag with
           | inl err => inl (ErrWrap err "couldn't retrieve skip flag")
           | inr skip =>
               inr {| Focus := Focus cfg; Skip := skip; Parallel := Parallel cfg;
                      CustomRegistries := CustomRegistries cfg |}
           end
         else inr cfg) with
  | inl err => mret (inl err)
  | inr cfg =>
  match (if flags_Changed flags e2eParallelFlag then
           match flags_GetString flags e2eParallelFlag with
           | inl err => inl (ErrWrap err "couldn't retrieve parallel flag")
           | inr parallel =>
               inr {| Focus := Focus cfg; Skip := Skip cfg; Parallel := parallel;
                      CustomRegistries := CustomRegistries cfg |}
           end
         else inr cfg) with
  | inl err => mret (inl err)
  | inr cfg =>
  if flags_Changed flags e2eRegistryConfigFlag then
    match flags_GetString flags e2eRegistryConfigFlag with
    | inl err => mret (inl (ErrWrap err "couldn't retrieve registry list flag"))
    | inr repoFile =>
        r ← ioutil_ReadFile repoFile;
        match r with
        | inl err => mret (inl (ErrWrap err "couldn't read registry list"))
        | inr contents =>
            (* Unmarshal just to validate yaml and short circuit failures
               from malformed files. *)
            match yaml_Unmarshal env contents with
            | inl err => mret (inl (ErrWrap err "failed to parse yaml registry list:"))
            | inr _ =>
                mret (inr {| Focus := Focus cfg; Skip := Skip cfg;
                             Parallel := Parallel cfg;
                             CustomRegistries := contents |})
            end
        end
    end
  else mret (inr cfg)
  end end end.

End E2EConfig.

(** ** [cmd/sonobuoy/app]: AddE2EConfigFlags *)

(** [FlagSet.String]: a string flag at its default, not set by the command
    line. *)
Definition FlagSet_String (name value : string) (flags : gmap string Flag)
  : gmap string Flag :=
  <[name := {| flag_type := "string"; flag_value := value; flag_changed := false |}]> flags.

(** [FlagSet.AddFlagSet]: the flags of [newSet] whose names [flags] does
    not define yet are added to it. *)
Definition FlagSet_AddFlagSet (flags newSet : gmap string Flag) : gmap string Flag :=
  flags ∪ newSet.

(** [ops.Conformance], the mode whose values are the defaults of the
    flags, is the argument [Conformance].  The result is the flag set
    returned, together with the flag set of the caller as the call leaves
    it.  In the code the two sets share their flags, so that parsing the
    command line into the one shows in the other; here they are values,
    as they are until the command line is parsed.  Hiding a flag changes
    the help text only. *)
Definition AddE2EConfigFlags (env : Env) (Conformance : string) (flags : gmap string Flag)
  : gmap string Flag * gmap string Flag :=
  let defaultMode := mode_E2EConfig env Conformance in
  let e2eFlags := FlagSet_String e2eFocusFlag (Focus defaultMode) ∅ in
  let e2eFlags := FlagSet_String e2eSkipFlag (Skip defaultMode) e2eFlags in
  let e2eFlags := FlagSet_String e2eParallelFlag (Parallel defaultMode) e2eFlags in
  let e2eFlags := FlagSet_String e2eRegistryConfigFlag EmptyString e2eFlags in
  (e2eFlags, FlagSet_AddFlagSet flags e2eFlags).

(** ** Observations on runs *)

Definition add_trace (t : list Event) (w : World) : World :=
  {| fs := fs w; fs_denied := fs_denied w; disk_free := disk_free w;
     trace := trace w ++ t |}.

Definition init_world : World :=
  {| fs := ∅; fs_denied := ∅; disk_free := 0; trace := [] |}.

Definition engine_calls (t : list Event) : list EngineCall :=
  omap (λ e, match e with EvEngine c => Some c | _ => None end) t.

Definition logged (t : list Event) : list error :=
  omap (λ e, match e with EvLogError c => Some c | _ => None end) t.

Definition printed (t : list Event) : list string :=
  omap (λ e, match e with EvStdout c => Some c | _ => None end) t.

Definition reads (t : list Event) : list ReadResult :=
  omap (λ e, match e with EvRead c => Some c | _ => None end) t.

(** The last read of the trace returned [io.EOF]: the stream was consumed
    to its end. *)
Definition stream_drained (t : list Event) : Prop :=
  ∃ d, last (reads t) = Some (d, Some EOF).

(** A computation that only appends events satisfying [P] to the trace:
    its result and its events do not depend on the world it starts from. *)
Definition io_only {A} (P : Event → Prop) (m : M A) : Prop :=
  ∃ r t, (∀ w, m w = (r, add_trace t w)) ∧ Forall P t.

Definition pure_io {A} (m : M A) : Prop := io_only (λ _, True) m.

Definition not_file_read (e : Event) : Prop :=
  match e with
  | EvReadFile _ => False
  | _ => True
  end.

Definition result_of {A} (m : M A) : Outcome A := (m init_world).1.
Definition events_of {A} (m : M A) : list Event := trace (m init_world).2.

(** The events of a loop whose bodies only append to the trace. *)
Definition batch_events {A} (body : A → M unit) (l : list A) : list Event :=
  l ≫= λ x, events_of (body x).

(** The world in which [SaveToTar] starts copying: the file has been
    created and the engine has been asked for the export. *)
Definition export_requested (images : list string) (filepath : string) (w : World) : World :=
  {| fs := <[filepath := EmptyString]> (fs w); fs_denied := fs_denied w;
     disk_free := disk_free w;
     trace := trace w ++ [EvCreate filepath; EvEngine (ImageSaveCall images)] |}.

Definition copy_failed_msg (filepath : string) : string :=
  "Could not copy the file '" +:+ filepath +:+ "' data to the tarball".

(** What [PullImage], [TagImage] and [PushImage] return; none of them
    depends on the world. *)
Definition pull_error (env : Env) (cli : Engine) (v : Config) : option error :=
  match result_of (PullImage env cli v) with
  | Done r => r
  | Exited _ => None
  end.

Definition tag_error (cli : Engine) (srcimg destimg : Config) : option error :=
  match result_of (TagImage cli srcimg destimg) with
  | Done r => r
  | Exited _ => None
  end.

Definition push_error (env : Env) (cli : Engine) (img : Config) (auth : AuthConfig)
  : option error :=
  match result_of (PushImage env cli img auth) with
  | Done r => r
  | Exited _ => None
  end.

Definition pull_log (env : Env) (cli : Engine) (v : Config) : list Event :=
  match pull_error env cli v with
  | Some err => [EvLogError (ErrWrap err ("couldn't pull image: " +:+ GetE2EImage v))]
  | None => []
  end.

Definition tag_log (cli : Engine) (v d : Config) : list Event :=
  match tag_error cli v d with
  | Some err => [EvLogError (ErrWrap err ("couldn't tag image: " +:+ GetE2EImage v))]
  | None => []
  end.

Definition push_log (env : Env) (cli : Engine) (v d : Config) (auth : AuthConfig)
  : list Event :=
  match push_error env cli d auth with
  | Some err => [EvLogError (ErrWrap err ("couldn't push image: " +:+ GetE2EImage v))]
  | None => []
  end.

(** The engine request that [PushImage] issues, if the credentials marshal. *)
Definition push_calls (env : Env) (img : Config) (auth : AuthConfig) : list EngineCall :=
  match json_Marshal env auth with
  | inl _ => []
  | inr authBytes => [ImagePushCall (GetE2EImage img) (EncodeToString authBytes)]
  end.

Definition pull_calls (order : list (string * Config)) : list EngineCall :=
  (λ kv, ImagePullCall (GetE2EImage kv.2)) <$> order.

(** What the loop of [pushImages] asks of the engine, read off the code:
    every entry of the source set is tagged and pushed, the destination
    being [privateImages[k]]. *)
Definition code_TagAndPush_calls (env : Env) (privateImages : gmap string Config)
    (auth : AuthConfig) (order : list (string * Config)) : list EngineCall :=
  order ≫= λ kv,
    ImageTagCall (GetE2EImage kv.2) (GetE2EImage (privateImages !!! kv.1))
    :: push_calls env (privateImages !!! kv.1) auth.


Definition without_override (f : imagesFlags) : imagesFlags :=
  {| e2eRegistryConfig := EmptyString; plugin := plugin f; username := username f;
     password := password f; imagesSaveFileName := imagesSaveFileName f;
     downloadTar := downloadTar f |}.

Definition with_file (path contents : string) (w : World) : World :=
  {| fs := <[path := contents]> (fs w); fs_denied := fs_denied w;
     disk_free := disk_free w; trace := trace w |}.


(** The flag set built by [AddE2EConfigFlags]: string flags only. *)
Definition all_string_flags (flags : gmap string Flag) : Prop :=
  map_Forall (λ _ f, flag_type f = "string") flags.

(** ** Further observations *)

(** What a stream holds: the bytes its reads deliver up to and including
    the first read that returns an error ([io.EOF] included), that error
    (an exhausted script answers [io.EOF]), and what is left after it. *)
Fixpoint stream_bytes (r : Reader) : string :=
  match r with
  | [] => EmptyString
  | (data, None) :: rest => data +:+ stream_bytes rest
  | (data, Some _) :: _ => data
  end.

Fixpoint stream_end (r : Reader) : error :=
  match r with
  | [] => EOF
  | (_, None) :: rest => stream_end rest
  | (_, Some e) :: _ => e
  end.

Fixpoint stream_rest (r : Reader) : Reader :=
  match r with
  | [] => []
  | (_, None) :: rest => stream_rest rest
  | (_, Some _) :: rest => rest
  end.

(** The error that ends a stream, [io.EOF] being no error. *)
Definition end_error (r : Reader) : option error :=
  if decide (stream_end r = EOF) then None else Some (stream_end r).

(** The events of a copy: reads of the stream and writes to the file. *)
Definition copy_event (e : Event) : Prop :=
  match e with
  | EvRead _ | EvWrite _ _ => True
  | _ => False
  end.

(** What [SaveToTar] returns for an export stream that the disk has room
    for: the error that ended the copy, else the error met while reading
    on to the end of the stream, else nil. *)
Definition save_result (filepath : string) (out : Reader) : option error :=
  match end_error out with
  | Some e => Some (ErrWrap e (copy_failed_msg filepath))
  | None =>
      match end_error (stream_rest out) with
      | Some e => Some (ErrWrap e "error exporting images")
      | None => None
      end
  end.

(** The references of an image set, in the order of the range. *)
Definition image_refs (order : list (string * Config)) : list string :=
  (λ kv, GetE2EImage kv.2) <$> order.

Definition remove_calls (order : list (string * Config)) : list EngineCall :=
  (λ kv, ImageRemoveCall (GetE2EImage kv.2)) <$> order.

(** What [deleteImages] logs for an image: the engine's refusal, wrapped by
    [DeleteImage] and by the loop. *)
Definition delete_log (cli : Engine) (v : Config) : list error :=
  match engine_ImageRemove cli (GetE2EImage v) with
  | inl err =>
      [ErrWrap (ErrWrap err ("error deleting image: " +:+ GetE2EImage v))
         ("couldn't delete image: " +:+ GetE2EImage v)]
  | inr _ => []
  end.

(** The lines printed for the items of a removal response. *)
Definition delete_lines (resp : list ImageDeleteResponseItem) : list string :=
  resp ≫= λ r,
    ("Deleted: " +:+ Deleted r +:+ nl)
    :: (if decide (Untagged r = EmptyString) then []
        else ["Untagged: " +:+ Untagged r +:+ nl]).

(** What [deleteImages] prints for an image. *)
Definition delete_output (cli : Engine) (v : Config) : list string :=
  match engine_ImageRemove cli (GetE2EImage v) with
  | inl _ => []
  | inr resp => delete_lines resp
  end ++ ["########" +:+ nl].

(** The value that a flag gives to a field of the configuration: its own
    when the command line set it, the one of the mode otherwise. *)
Definition flag_or (flags : gmap string Flag) (name dflt : string) : string :=
  match flags !! name with
  | Some f => if flag_changed f then flag_value f else dflt
  | None => dflt
  end.

(** A computation that does nothing but append events satisfying [P] to
    the trace; unlike [io_only], what it appends may depend on the world. *)
Definition appends_only {A} (P : Event → Prop) (m : M A) : Prop :=
  ∀ w, ∃ r t, m w = (r, add_trace t w) ∧ Forall P t.

(** The events that each command may produce. *)
Definition list_event (e : Event) : Prop :=
  match e with
  | EvStat _ | EvVersion | EvStdout _ | EvLogError _ => True
  | _ => False
  end.

Definition pull_event (e : Event) : Prop :=
  match e with
  | EvVersion | EvRead _ | EvStdout _ | EvLogError _ | EvEngine (ImagePullCall _) => True
  | _ => False
  end.

Definition push_event (e : Event) : Prop :=
  match e with
  | EvStat _ | EvReadFile _ | EvVersion | EvRead _ | EvStdout _ | EvLogError _
  | EvEngine (ImageTagCall _ _) | EvEngine (ImagePushCall _ _) => True
  | _ => False
  end.

Definition delete_event (e : Event) : Prop :=
  match e with
  | EvReadFile _ | EvVersion | EvStdout _ | EvLogError _
  | EvEngine (ImageRemoveCall _) => True
  | _ => False
  end.



(** The characters of the URL-safe base64 alphabet, and the padding. *)
Definition url_safe (c : ascii) : Prop :=
  let n := uint c in
  (65 ≤ n ≤ 90 ∨ 97 ≤ n ≤ 122 ∨ 48 ≤ n ≤ 57 ∨ n = 45 ∨ n = 95 ∨ n = 61)%N.

(** The lines that [listImages] prints. *)
Definition list_lines (order : list (string * Config)) : list string :=
  (λ kv, GetE2EImage kv.2 +:+ nl) <$> order.

(** The tagging requests of the push batch. *)
Definition tag_calls (privateImages : gmap string Config) (order : list (string * Config))
  : list EngineCall :=
  (λ kv, ImageTagCall (GetE2EImage kv.2) (GetE2EImage (privateImages !!! kv.1))) <$> order.

(** The errors that the pull batch logs: one for each image whose pull
    failed, none for the others. *)
Definition pull_failures (env : Env) (cli : Engine) (order : list (string * Config))
  : list error :=
  omap (λ kv, (λ err, ErrWrap err ("couldn't pull image: " +:+ GetE2EImage kv.2))
              <$> pull_error env cli kv.2) order.

(** ** Concrete runs *)

Definition range_forward : RangeOrder :=
  {| range := map_to_list; range_perm := λ m, reflexivity _ |}.


Definition dq : string := String (ascii_of_nat 34) EmptyString.

(** A marshaller for credentials free of characters that JSON escapes. *)
Definition demo_json (auth : AuthConfig) : string :=
  "{" +:+ dq +:+ "username" +:+ dq +:+ ":" +:+ dq +:+ Username auth +:+ dq
  +:+ "," +:+ dq +:+ "password" +:+ dq +:+ ":" +:+ dq +:+ Password auth +:+ dq
  +:+ "}".

Definition demo_json_Marshal (auth : AuthConfig) : error + string :=
  inr (demo_json auth).

Definition demo_yaml_Unmarshal (contents : string) : error + gmap string string :=
  if decide (contents = "registry: myregistry.local")
  then inr {[ "registry" := "myregistry.local" ]}
  else inl (ErrNew "yaml: unmarshal errors").

Definition demo_table : gmap string (string * string) :=
  {[ "busybox" := ("docker.io/library", "busybox");
     "conformance" := ("k8s.gcr.io", "conformance") ]}.

Definition busybox : Config :=
  {| logicalName := "busybox"; registryHost := "docker.io/library";
     repositoryPath := "busybox"; tag := "v1.18.0" |}.

Definition conformance : Config :=
  {| logicalName := "conformance"; registryHost := "k8s.gcr.io";
     repositoryPath := "conformance"; tag := "v1.18.0" |}.

Definition demo_private : gmap string Config :=
  {[ "busybox" := {| logicalName := "busybox"; registryHost := "myregistry.local";
                     repositoryPath := "busybox"; tag := "v1.18.0" |};
     "conformance" := {| logicalName := "conformance"; registryHost := "myregistry.local";
                         repositoryPath := "conformance"; tag := "v1.18.0" |} ]}.

Definition demo_stream : Reader :=
  [("abcd", None); ("ef", None); (EmptyString, Some EOF)].

(** An engine that cannot pull the conformance image nor tag busybox. *)
Definition demo_engine : Engine :=
  {| engine_ImageSave := λ _, inr demo_stream;
     engine_ImagePull := λ ref,
       if decide (ref = "k8s.gcr.io/conformance:v1.18.0")
       then inl (ErrNew "manifest unknown")
       else inr [(EmptyString, Some EOF)];
     engine_ImageTag := λ source _,
       if decide (source = "docker.io/library/busybox:v1.18.0")
       then Some (ErrNew "No such image")
       else None;
     engine_ImagePush := λ _ _, inr [(EmptyString, Some EOF)];
     engine_ImageRemove := λ _, inr [] |}.

Definition unreachable_engine : Engine :=
  {| engine_ImageSave := λ _, inl (ErrNew "Cannot connect to the Docker daemon");
     engine_ImagePull := λ _, inl (ErrNew "Cannot connect to the Docker daemon");
     engine_ImageTag := λ _ _, Some (ErrNew "Cannot connect to the Docker daemon");
     engine_ImagePush := λ _ _, inl (ErrNew "Cannot connect to the Docker daemon");
     engine_ImageRemove := λ _, inl (ErrNew "Cannot connect to the Docker daemon") |}.

Definition demo_env (order : RangeOrder) : Env :=
  {| json_Marshal := demo_json_Marshal;
     yaml_Unmarshal := demo_yaml_Unmarshal;
     DisplayJSONMessagesStream := λ r, (None, []);
     kubeconfig_Get := None;
     getSonobuoyClient := None;
     sbc_Version := inr "v1.18.0";
     client_NewClientWithOpts := inr demo_engine;
     viper_password := "secret";
     terminal_ReadPassword := inr "secret";
     mode_E2EConfig := λ _,
       {| Focus := "Conformance"; Skip := EmptyString; Parallel := "false";
          CustomRegistries := EmptyString |};
     range_order := order;
     default_table := demo_table;
     apply_override := λ override table,
       (λ hp, (default hp.1 (override !! "registry"), hp.2)) <$> table;
     valid_version := λ v, bool_decide (v ≠ EmptyString) |}.

Definition demo_auth : AuthConfig := {| Username := "admin"; Password := "secret" |}.

Definition demo_flags (override : string) : imagesFlags :=
  {| e2eRegistryConfig := override; plugin := "e2e"; username := "admin";
     password := EmptyString; imagesSaveFileName := EmptyString;
     downloadTar := false |}.



(** Two override files, one of them malformed, and a nearly full disk. *)
Definition demo_world : World :=
  {| fs := {[ "repos.yaml" := "registry: myregistry.local";
              "bad.yaml" := "- not a mapping" ]};
     fs_denied := ∅; disk_free := 3; trace := [] |}.

(** The same files on a disk with room for the export. *)
Definition roomy_world : World :=
  {| fs := fs demo_world; fs_denied := ∅; disk_free := 64; trace := [] |}.

(** An engine that holds only the busybox image of the private registry,
    under a tag and a digest. *)
Definition removing_engine : Engine :=
  {| engine_ImageSave := λ _, inr demo_stream;
     engine_ImagePull := λ _, inr [(EmptyString, Some EOF)];
     engine_ImageTag := λ _ _, None;
     engine_ImagePush := λ _ _, inr [(EmptyString, Some EOF)];
     engine_ImageRemove := λ ref,
       if decide (ref = "myregistry.local/busybox:v1.18.0")
       then inr [ {| Deleted := EmptyString;
                     Untagged := "myregistry.local/busybox:v1.18.0" |};
                  {| Deleted := "sha256:6d5fcfe5ff17"; Untagged := EmptyString |} ]
       else inl (ErrNew "No such image") |}.

(** The demonstration environment with another cluster answer, password
    of the environment, answer to the prompt, marshaller and engine. *)
Definition custom_env (version : error + string) (envPassword : string)
    (typed : error + string) (marshal : AuthConfig → error + string)
    (cli : error + Engine) : Env :=
  {| json_Marshal := marshal;
     yaml_Unmarshal := demo_yaml_Unmarshal;
     DisplayJSONMessagesStream := λ r, (None, []);
     kubeconfig_Get := None;
     getSonobuoyClient := None;
     sbc_Version := version;
     client_NewClientWithOpts := cli;
     viper_password := envPassword;
     terminal_ReadPassword := typed;
     mode_E2EConfig := mode_E2EConfig (demo_env range_forward);
     range_order := range_forward;
     default_table := demo_table;
     apply_override := apply_override (demo_env range_forward);
     valid_version := valid_version (demo_env range_forward) |}.



Definition removing_env : Env :=
  custom_env (inr "v1.18.0") "secret" (inr "secret") demo_json_Marshal
    (inr removing_engine).

Definition unmarshallable_env : Env :=
  custom_env (inr "v1.18.0") "secret" (inr "secret")
    (λ _, inl (ErrNew "json: unsupported value")) (inr demo_engine).

Definition dockerless_env : Env :=
  custom_env (inr "v1.18.0") "secret" (inr "secret") demo_json_Marshal
    (inl (ErrNew "Cannot connect to the Docker daemon")).

Definition demo_upstream : gmap string Config := resolve_images demo_table "v1.18.0".

(** The command line gave an empty focus and an override file. *)
Definition focus_flagset : gmap string Flag :=
  {[ e2eFocusFlag :=
       {| flag_type := "string"; flag_value := EmptyString; flag_changed := true |};
     e2eSkipFlag :=
       {| flag_type := "string"; flag_value := "Disruptive"; flag_changed := false |};
     e2eRegistryConfigFlag :=
       {| flag_type := "string"; flag_value := "repos.yaml"; flag_changed := true |} ]}.

Definition systemd_flags : imagesFlags :=
  {| e2eRegistryConfig := "repos.yaml"; plugin := "systemd-logs"; username := EmptyString;
     password := EmptyString; imagesSaveFileName := EmptyString; downloadTar := false |}.

(** * Properties *)

(** ** Traces *)

Lemma add_trace_nil w : add_trace [] w = w.
Proof. destruct w; unfold add_trace; simpl. by rewrite app_nil_r. Qed.

Lemma add_trace_app t1 t2 w : add_trace t2 (add_trace t1 w) = add_trace (t1 ++ t2) w.
Proof. unfold add_trace; simpl. by rewrite app_assoc. Qed.

Lemma emit_world_add_trace e w : emit_world e w = add_trace [e] w.
Proof. reflexivity. Qed.

Lemma engine_calls_app t1 t2 : engine_calls (t1 ++ t2) = engine_calls t1 ++ engine_calls t2.
Proof. apply omap_app. Qed.

Lemma logged_app t1 t2 : logged (t1 ++ t2) = logged t1 ++ logged t2.
Proof. apply omap_app. Qed.

Lemma printed_app t1 t2 : printed (t1 ++ t2) = printed t1 ++ printed t2.
Proof. apply omap_app. Qed.

Lemma reads_app t1 t2 : reads (t1 ++ t2) = reads t1 ++ reads t2.
Proof. apply omap_app. Qed.

Lemma reads_fmap_EvRead rs : reads (EvRead <$> rs) = rs.
Proof. unfold reads. induction rs as [|r rs IH]; [done|]. cbn. by rewrite IH. Qed.

Lemma engine_calls_reads rs : engine_calls (EvRead <$> rs) = [].
Proof. unfold engine_calls. induction rs; [done|]. by cbn. Qed.

Lemma logged_reads rs : logged (EvRead <$> rs) = [].
Proof. unfold logged. induction rs; [done|]. by cbn. Qed.

Lemma printed_reads rs : printed (EvRead <$> rs) = [].
Proof. unfold printed. induction rs; [done|]. by cbn. Qed.

Lemma engine_calls_fmap cs : engine_calls (EvEngine <$> cs) = cs.
Proof. unfold engine_calls. induction cs as [|c cs IH]; [done|]. cbn. by rewrite IH. Qed.

Lemma logged_fmap_engine cs : logged (EvEngine <$> cs) = [].
Proof. unfold logged. induction cs as [|c cs IH]; [done|]. by cbn. Qed.

(** ** Running a bind *)

Lemma bind_done {A B} (m : M A) (f : A → M B) w a w' :
  m w = (Done a, w') → (m ≫= f) w = f a w'.
Proof. intros H. unfold mbind, M_bind. by rewrite H. Qed.

Lemma ret_bind {A B} (a : A) (f : A → M B) w : (mret a ≫= f) w = f a w.
Proof. reflexivity. Qed.


Lemma cluster_Version_run env w :
  cluster_Version env w = (Done (sbc_Version env), add_trace [EvVersion] w).
Proof. reflexivity. Qed.

Lemma LogError_exit e w :
  (LogError e;; os_Exit 1) w = (Exited 1 : Outcome unit, add_trace [EvLogError e] w).
Proof. reflexivity. Qed.

Ltac log_exit :=
  etrans; [apply LogError_exit|]; rewrite ?add_trace_app; try reflexivity.

(** ** Computations that only append to the trace *)

Lemma run_events {A} (m : M A) r t :
  (∀ w, m w = (r, add_trace t w)) → result_of m = r ∧ events_of m = t.
Proof. intros H. unfold result_of, events_of. by rewrite H. Qed.

Lemma io_only_run {A} P (m : M A) :
  io_only P m →
  (∀ w, m w = (result_of m, add_trace (events_of m) w)) ∧ Forall P (events_of m).
Proof.
  intros (r & t & H & HP). destruct (run_events _ _ _ H) as [-> ->]. done.
Qed.

Lemma pure_io_run {A} (m : M A) :
  pure_io m → ∀ w, m w = (result_of m, add_trace (events_of m) w).
Proof. intros H. by apply (io_only_run _ _ H). Qed.

Lemma pure_io_intro {A} (m : M A) r t :
  (∀ w, m w = (r, add_trace t w)) → pure_io m.
Proof. intros H. exists r, t. split; [done|]. by apply Forall_true. Qed.

Lemma io_only_ret {A} P (a : A) : io_only P (mret a).
Proof. exists (Done a), []. split; [|done]. intros w. by rewrite add_trace_nil. Qed.

Lemma io_only_emit (P : Event → Prop) e : P e → io_only P (emit e).
Proof. intros HP. exists (Done tt), [e]. split; [done|]. by constructor. Qed.

Lemma io_only_exit {A} P c : io_only P (@os_Exit A c).
Proof. exists (Exited c), []. split; [|done]. intros w. by rewrite add_trace_nil. Qed.

Lemma io_only_bind {A B} P (m : M A) (f : A → M B) :
  io_only P m → (∀ a, io_only P (f a)) → io_only P (m ≫= f).
Proof.
  intros (r & t & Hm & Ht) Hf. destruct r as [a|c].
  - destruct (Hf a) as (r' & t' & Hfa & Ht'). exists r', (t ++ t'). split.
    + intros w. unfold mbind, M_bind. by rewrite Hm, Hfa, add_trace_app.
    + by apply Forall_app.
  - exists (Exited c), t. split; [|done].
    intros w. unfold mbind, M_bind. by rewrite Hm.
Qed.

Lemma io_only_forM_ {A} P (l : list A) (body : A → M unit) :
  (∀ x, io_only P (body x)) → io_only P (forM_ l body).
Proof.
  intros Hb. induction l as [|x l IH]; simpl.
  - apply io_only_ret.
  - apply io_only_bind; auto.
Qed.

Lemma io_only_ReadAll (P : Event → Prop) r :
  (∀ x, P (EvRead x)) → io_only P (ioutil_ReadAll r).
Proof.
  intros HP. induction r as [|[data er] rest IH]; simpl.
  - apply io_only_bind; [by apply io_only_emit|intros; apply io_only_ret].
  - apply io_only_bind; [by apply io_only_emit|intros _].
    destruct er as [[]|]; try apply io_only_ret.
    apply io_only_bind; [done|]. intros [[??]?]. apply io_only_ret.
Qed.

Ltac io_only_step :=
  match goal with
  | |- pure_io _ => unfold pure_io
  | |- io_only _ (mbind _ _) => apply io_only_bind; [|intros]
  | |- io_only _ (mret _) => apply io_only_ret
  | |- io_only _ (emit _) => apply io_only_emit; exact I
  | |- io_only _ (os_Exit _) => apply io_only_exit
  | |- io_only _ (ioutil_ReadAll _) => apply io_only_ReadAll; intros; exact I
  | |- io_only _ (forM_ _ _) => apply io_only_forM_; intros
  | |- io_only _ (match ?x with _ => _ end) => destruct x
  end.

Ltac solve_io_only := repeat io_only_step.

(** A loop whose bodies only append to the trace and never exit runs to
    its end and appends the events of its bodies, in order. *)
Lemma forM__run {A} (body : A → M unit) (l : list A) :
  (∀ x, x ∈ l → pure_io (body x) ∧ result_of (body x) = Done tt) →
  ∀ w, forM_ l body w = (Done tt, add_trace (batch_events body l) w).
Proof.
  induction l as [|x l IH]; intros Hb w.
  - simpl. unfold mret, M_ret. by rewrite add_trace_nil.
  - destruct (Hb x) as [Hp Hr]; [left|].
    simpl. unfold mbind, M_bind. rewrite (pure_io_run _ Hp w), Hr.
    rewrite IH by (intros; apply Hb; by right).
    rewrite add_trace_app. done.
Qed.

Lemma batch_events_app {A} (body : A → M unit) l1 l2 :
  batch_events body (l1 ++ l2) = batch_events body l1 ++ batch_events body l2.
Proof. apply bind_app. Qed.

Lemma batch_events_cons {A} (body : A → M unit) x l :
  batch_events body (x :: l) = events_of (body x) ++ batch_events body l.
Proof. reflexivity. Qed.

(** ** Streams *)

(** [ioutil.ReadAll] always returns, after a read that gave [io.EOF] (no
    error is reported) or another error (which is reported). *)
Lemma ReadAll_run r :
  ∃ data e r' rs d x,
    (∀ w, ioutil_ReadAll r w = (Done (data, e, r'), add_trace (EvRead <$> rs) w))
    ∧ last rs = Some (d, Some x)
    ∧ e = (if decide (x = EOF) then None else Some x).
Proof.
  induction r as [|[data er] rest IH].
  - exists EmptyString, None, [], [(EmptyString, Some EOF)], EmptyString, EOF.
    split_and!; done.
  - destruct er as [x|].
    + exists data, (if decide (x = EOF) then None else Some x), rest,
        [(data, Some x)], data, x.
      split_and!; try done. intros w. simpl. unfold mbind, M_bind, emit.
      destruct x; done.
    + destruct IH as (more & e & r' & rs & d & x & Hrun & Hlast & He).
      exists (data +:+ more), e, r', ((data, None) :: rs), d, x.
      split_and!; try done.
      * intros w. simpl. unfold mbind, M_bind, emit.
        rewrite Hrun. simpl. unfold mret, M_ret. f_equal.
        rewrite emit_world_add_trace, add_trace_app. done.
      * destruct rs; done.
Qed.

(** [io.Copy] always returns; when it reports no error, its last read
    gave [io.EOF]. *)
Lemma io_Copy_run dst src w :
  ∃ cerr out w', io_Copy dst src w = (Done (cerr, out), w')
    ∧ (cerr = None → stream_drained (trace w')).
Proof.
  unfold stream_drained.
  revert w. induction src as [|[data er] rest IH]; intros w.
  - eexists _, _, _. split; [reflexivity|]. intros _. simpl.
    rewrite reads_app. simpl. rewrite last_snoc. eauto.
  - simpl. unfold mbind at 1, M_bind at 1. unfold emit at 1.
    unfold mbind at 1, M_bind at 1.
    destruct (decide (0 < String.length data)) as [Hpos|Hz].
    + unfold mbind at 1, M_bind at 1. unfold file_Write.
      destruct (decide (String.length data `min`
                          disk_free (emit_world (EvRead (data, er)) w)
                        < String.length data)).
      * eexists _, _, _. split; [reflexivity|]. done.
      * destruct (decide (String.length data ≠ _)).
        { eexists _, _, _. split; [reflexivity|]. done. }
        unfold mret at 1, M_ret at 1.
        destruct er as [[]|]; [| | | |apply IH];
          (eexists _, _, _; split; [reflexivity|]); try done.
        intros _. simpl. rewrite !reads_app. simpl.
        rewrite app_nil_r, last_snoc. eauto.
    + unfold mret at 1, M_ret at 1.
      destruct er as [[]|]; [| | | |apply IH];
        (eexists _, _, _; split; [reflexivity|]); try done.
      intros _. simpl. rewrite !reads_app. simpl. rewrite last_snoc. eauto.
Qed.

(** ** Files *)

Lemma os_Create_ok path w :
  path ∉ fs_denied w →
  os_Create path w
  = (Done (inr path),
     {| fs := <[path := EmptyString]> (fs w); fs_denied := fs_denied w;
        disk_free := disk_free w; trace := trace w ++ [EvCreate path] |}).
Proof. intros H. unfold os_Create. by rewrite decide_False. Qed.


Lemma os_Stat_present path contents w :
  fs w !! path = Some contents →
  os_Stat path w = (Done None, add_trace [EvStat path] w).
Proof. intros H. unfold os_Stat. by rewrite H. Qed.

Lemma nonempty_length (s : string) : s ≠ EmptyString → 0 < String.length s.
Proof. destruct s; [done|]. simpl. lia. Qed.

(** ** SaveToTar *)

(** Up to the copy, [SaveToTar] creates the file and asks for the export. *)
Lemma SaveToTar_until_copy cli images filepath out w :
  filepath ∉ fs_denied w →
  engine_ImageSave cli images = inr out →
  ∀ k : option error * Reader → M (option error),
    (r ← os_Create filepath;
     match r with
     | inl err =>
         mret (Some (ErrWrap err ("Could not create tarball file '" +:+ filepath +:+ "'")))
     | inr file =>
         r ← cli_ImageSave cli images;
         match r with
         | inl err => mret (Some (ErrWrap err "error saving images to tar"))
         | inr out => io_Copy file out ≫= k
         end
     end) w
    = (io_Copy filepath out ≫= k) (export_requested images filepath w).
Proof.
  intros Hok Hsave k.
  assert (emit_world (EvEngine (ImageSaveCall images))
            {| fs := <[filepath := EmptyString]> (fs w); fs_denied := fs_denied w;
               disk_free := disk_free w; trace := trace w ++ [EvCreate filepath] |}
          = export_requested images filepath w) as Hw.
  { unfold export_requested, emit_world; simpl. by rewrite <- app_assoc. }
  unfold mbind at 1, M_bind at 1.
  rewrite (os_Create_ok _ _ Hok).
  unfold cli_ImageSave, mbind, M_bind, emit, mret, M_ret.
  by rewrite Hsave, Hw.
Qed.

(** C1 (amended): when the copy of the export stream to the file fails,
    [SaveToTar] returns the copy error at once and reads nothing more (its
    final world is the one the copy left).  Only when the copy succeeds,
    which means the copy itself read up to end-of-stream, does it go on
    reading until end-of-stream or an error; such a late error is returned
    as "error exporting images", distinct from the copy error. *)
Theorem SaveToTar_copy_outcome cli images filepath out w :
  filepath ∉ fs_denied w →
  engine_ImageSave cli images = inr out →
  ∃ cerr out1 w2,
    io_Copy filepath out (export_requested images filepath w) = (Done (cerr, out1), w2)
    ∧ match cerr with
      | Some e =>
          SaveToTar cli images filepath w
          = (Done (Some (ErrWrap e (copy_failed_msg filepath))), w2)
      | None =>
          stream_drained (trace w2)
          ∧ ∃ rs d x,
              SaveToTar cli images filepath w
              = (Done (if decide (x = EOF) then None
                       else Some (ErrWrap x "error exporting images")),
                 add_trace (EvRead <$> rs) w2)
              ∧ last rs = Some (d, Some x)
      end.
Proof.
  intros Hok Hsave.
  destruct (io_Copy_run filepath out (export_requested images filepath w))
    as (cerr & out1 & w2 & Hcopy & Heof).
  exists cerr, out1, w2. split; [done|].
  unfold SaveToTar. rewrite (SaveToTar_until_copy _ _ _ _ _ Hok Hsave).
  destruct cerr as [e|].
  - unfold mbind, M_bind. by rewrite Hcopy.
  - split; [auto|].
    destruct (ReadAll_run out1) as (data & e & r' & rs & d & x & Hrun & Hlast & He).
    exists rs, d, x. split; [|done].
    unfold mbind, M_bind. rewrite Hcopy, Hrun. subst e.
    by destruct (decide (x = EOF)).
Qed.

(** C10: [SaveToTar] creates (truncating) the destination before it asks
    the engine for the export, so when the export request fails the error
    is returned and the empty file is on disk all the same. *)
Theorem SaveToTar_export_error_leaves_file cli images filepath err w :
  filepath ∉ fs_denied w →
  engine_ImageSave cli images = inl err →
  ∃ w',
    SaveToTar cli images filepath w
    = (Done (Some (ErrWrap err "error saving images to tar")), w')
    ∧ trace w' = trace w ++ [EvCreate filepath; EvEngine (ImageSaveCall images)]
    ∧ fs w' !! filepath = Some EmptyString
    ∧ (fs w !! filepath ≠ Some EmptyString → fs w' ≠ fs w).
Proof.
  intros Hok Hsave. exists (export_requested images filepath w). split_and!.
  - unfold SaveToTar, mbind at 1, M_bind at 1. rewrite (os_Create_ok _ _ Hok).
    unfold cli_ImageSave, mbind, M_bind, emit, mret, M_ret. rewrite Hsave.
    unfold export_requested, emit_world. simpl. by rewrite <- app_assoc.
  - done.
  - simpl. apply lookup_insert_eq.
  - simpl. intros Hne Heq. apply Hne. rewrite <- Heq. apply lookup_insert_eq.
Qed.

(** ** The pull batch *)

(** One pull: the engine is asked once, then only stream reads follow. *)
Lemma PullImage_run env cli v :
  ∃ rs, ∀ w,
    PullImage env cli v w
    = (Done (pull_error env cli v),
       add_trace (EvEngine (ImagePullCall (GetE2EImage v)) :: (EvRead <$> rs)) w).
Proof.
  assert (∃ r rs, ∀ w,
    PullImage env cli v w
    = (Done r, add_trace (EvEngine (ImagePullCall (GetE2EImage v)) :: (EvRead <$> rs)) w))
    as (r & rs & H).
  { unfold PullImage, cli_ImagePull, streamDockerMessages, mbind, M_bind, emit, mret, M_ret.
    destruct (engine_ImagePull cli (GetE2EImage v)) as [err|out].
    { by eexists _, []. }
    destruct (DisplayJSONMessagesStream env out) as [[err|] out'].
    { by eexists _, []. }
    destruct (ReadAll_run out') as (data & e & r' & rs & d & x & Hrun & _ & _).
    exists (match e with
            | Some err => Some (ErrWrap err ("error pulling image: " +:+ GetE2EImage v))
            | None => None
            end), rs.
    intros w. rewrite Hrun, emit_world_add_trace, add_trace_app. by destruct e. }
  exists rs. intros w. rewrite H. do 2 f_equal.
  unfold pull_error, result_of. by rewrite H.
Qed.

Lemma pullImages_body_run env cli kv :
  ∃ rs, ∀ w,
    pullImages_body env cli kv w
    = (Done tt,
       add_trace (EvEngine (ImagePullCall (GetE2EImage kv.2)) :: (EvRead <$> rs)
                  ++ pull_log env cli kv.2 ++ [EvStdout ("########" +:+ nl)]) w).
Proof.
  destruct kv as [k v]. destruct (PullImage_run env cli v) as (rs & H).
  exists rs. intros w. unfold pullImages_body, mbind, M_bind. rewrite H.
  unfold pull_log. simpl. destruct (pull_error env cli v); simpl;
    unfold LogError, fmt_Println, emit, mret, M_ret;
    rewrite ?emit_world_add_trace, ?add_trace_app; do 2 f_equal;
    simpl; by rewrite <- ?app_assoc.
Qed.

Lemma pullImages_body_good env cli kv :
  pure_io (pullImages_body env cli kv) ∧ result_of (pullImages_body env cli kv) = Done tt.
Proof.
  destruct (pullImages_body_run env cli kv) as (rs & H). split.
  - by eapply pure_io_intro.
  - by apply (run_events _ _ _ H).
Qed.

Lemma pullImages_body_events env cli kv :
  engine_calls (events_of (pullImages_body env cli kv)) = [ImagePullCall (GetE2EImage kv.2)]
  ∧ logged (events_of (pullImages_body env cli kv)) = logged (pull_log env cli kv.2)
  ∧ printed (events_of (pullImages_body env cli kv)) = ["########" +:+ nl].
Proof.
  destruct (pullImages_body_run env cli kv) as (rs & H).
  destruct (run_events _ _ _ H) as [_ ->].
  assert (engine_calls (pull_log env cli kv.2) = [] ∧ printed (pull_log env cli kv.2) = [])
    as [Hc Hp] by (unfold pull_log; by destruct pull_error).
  change (?x :: ?l ++ ?l') with ([x] ++ l ++ l').
  rewrite !engine_calls_app, !logged_app, !printed_app.
  rewrite engine_calls_reads, logged_reads, printed_reads, Hc, Hp.
  simpl. by rewrite app_nil_r.
Qed.

Lemma pull_batch_events env cli l :
  engine_calls (batch_events (pullImages_body env cli) l) = pull_calls l
  ∧ logged (batch_events (pullImages_body env cli) l)
    = l ≫= (λ kv, logged (pull_log env cli kv.2))
  ∧ printed (batch_events (pullImages_body env cli) l)
    = replicate (length l) ("########" +:+ nl).
Proof.
  induction l as [|kv l (IH1 & IH2 & IH3)]; [done|].
  destruct (pullImages_body_events env cli kv) as (H1 & H2 & H3).
  rewrite batch_events_cons, engine_calls_app, logged_app, printed_app.
  rewrite H1, H2, H3, IH1, IH2, IH3. done.
Qed.

Lemma pull_batch_run env cli l w :
  forM_ l (pullImages_body env cli) w
  = (Done tt, add_trace (batch_events (pullImages_body env cli) l) w).
Proof. apply forM__run. intros; apply pullImages_body_good. Qed.


(** The images that [GetImages] resolves when no override is given. *)
Lemma GetImages_default env version w :
  valid_version env version = true →
  GetImages env EmptyString version w
  = (Done (inr (resolve_images (default_table env) version)), w).
Proof.
  intros Hv. unfold GetImages, NewRegistryList, GetImageConfigs, mbind, M_bind, mret, M_ret.
  simpl. by rewrite Hv.
Qed.

(** Once the version and the clients are there, [pullImages] is its loop
    over the resolved set, in the order that the range produces. *)
Lemma pullImages_runs_batch env imagesflags version cli w :
  plugin imagesflags = "e2e" →
  kubeconfig_Get env = None →
  getSonobuoyClient env = None →
  sbc_Version env = inr version →
  valid_version env version = true →
  client_NewClientWithOpts env = inr cli →
  pullImages env imagesflags w
  = forM_ (range (range_order env) (resolve_images (default_table env) version))
          (pullImages_body env cli) (add_trace [EvVersion] w).
Proof.
  intros Hp Hk Hs Hver Hvalid Hcli. unfold pullImages.
  rewrite decide_True by done. rewrite Hk, Hs.
  erewrite bind_done by apply cluster_Version_run. rewrite Hver.
  erewrite bind_done by (by apply GetImages_default). by rewrite Hcli.
Qed.



(** ** base64 *)

Section Base64.
Local Open Scope N_scope.

Lemma uint_bound c : uint c < 256.
Proof. apply N_ascii_bounded. Qed.

Lemma lor_shiftl_add hi lo n :
  lo < 2 ^ n → N.lor (N.shiftl hi n) lo = hi * 2 ^ n + lo.
Proof.
  intros Hlo. rewrite N.shiftl_mul_pow2.
  rewrite <- N.lxor_lor, N.add_nocarry_lxor; try done.
  all: apply N.bits_inj; intros i; rewrite N.land_spec, N.bits_0.
  all: destruct (N.lt_ge_cases i n) as [Hi|Hi].
  all: try (rewrite N.mul_pow2_bits_low by done; done).
  all: rewrite <- (N.mod_small lo (2 ^ n)) by done.
  all: rewrite N.mod_pow2_bits_high by done; apply andb_false_r.
Qed.

Lemma lor_add x lo n :
  x mod 2 ^ n = 0 → lo < 2 ^ n → N.lor x lo = x + lo.
Proof.
  intros Hx Hlo.
  assert (x = N.shiftl (x / 2 ^ n) n) as ->.
  { rewrite N.shiftl_mul_pow2. pose proof (N.div_mod x (2 ^ n)) as H.
    rewrite Hx in H. lia. }
  rewrite lor_shiftl_add by done. by rewrite N.shiftl_mul_pow2.
Qed.

Lemma land_63 n : N.land n 63 = n mod 64.
Proof. apply (N.land_ones n 6). Qed.

Lemma land_255 n : N.land n 255 = n mod 256.
Proof. apply (N.land_ones n 8). Qed.

Lemma byte_of_eq n c : n mod 256 = uint c → byte_of n = c.
Proof.
  intros H. unfold byte_of. rewrite land_255, H. apply ascii_N_embedding.
Qed.

(** The alphabet and its inverse table. *)
Lemma decode_sextet i :
  i < 64 → decode_at (encode_at i) = Some i ∧ encode_at i ≠ padChar.
Proof.
  intros Hi. assert (N.to_nat i < 64)%nat as Hn by lia.
  rewrite <- (N2Nat.id i). generalize dependent (N.to_nat i). clear.
  intros n Hn.
  do 64 (destruct n as [|n]; [split; [vm_compute; reflexivity|vm_compute; discriminate]|]).
  lia.
Qed.

Ltac to_arith :=
  rewrite ?land_63, ?land_255, ?N.shiftl_mul_pow2, ?N.shiftr_div_pow2;
  change (2 ^ 18) with 262144; change (2 ^ 16) with 65536;
  change (2 ^ 12) with 4096; change (2 ^ 8) with 256; change (2 ^ 6) with 64.

Ltac sextet_lt := to_arith; lia.

Lemma quantum_val a b c :
  a < 256 → b < 256 → c < 256 →
  N.lor (N.lor (N.shiftl a 16) (N.shiftl b 8)) c = a * 65536 + b * 256 + c.
Proof.
  intros Ha Hb Hc.
  rewrite (lor_add (N.shiftl a 16) _ 16), (lor_add _ c 8); sextet_lt.
Qed.

Lemma sextets_val i0 i1 i2 i3 :
  i0 < 64 → i1 < 64 → i2 < 64 → i3 < 64 →
  N.lor (N.lor (N.lor (N.shiftl i0 18) (N.shiftl i1 12)) (N.shiftl i2 6)) i3
  = i0 * 262144 + i1 * 4096 + i2 * 64 + i3.
Proof.
  intros H0 H1 H2 H3.
  rewrite (lor_add (N.shiftl i0 18) _ 18), (lor_add _ (N.shiftl i2 6) 12),
    (lor_add _ i3 6); sextet_lt.
Qed.

Lemma string_ind3 (P : string → Prop) :
  P EmptyString →
  (∀ a, P (String a EmptyString)) →
  (∀ a b, P (String a (String b EmptyString))) →
  (∀ a b c rest, P rest → P (String a (String b (String c rest)))) →
  ∀ s, P s.
Proof.
  intros H0 H1 H2 H3.
  assert (∀ s, P s ∧ (∀ a, P (String a s)) ∧ (∀ a b, P (String a (String b s))))
    as H; [|intros s; apply H].
  induction s as [|c s (IH0 & IH1 & IH2)]; [by auto|].
  split_and!; auto.
Qed.

(** [URLEncoding.DecodeString] undoes [URLEncoding.EncodeToString]: the
    encoding loses nothing of the bytes it is given. *)
Lemma DecodeString_EncodeToString s : DecodeString (EncodeToString s) = Some s.
Proof.
  induction s as [|a|a b|a b c rest IH] using string_ind3.
  - reflexivity.
  - pose proof (uint_bound a) as Ha.
    unfold EncodeToString.
    set (val := N.shiftl (uint a) 16).
    assert (val = uint a * 65536) as Hval by (unfold val; by to_arith).
    destruct (decode_sextet (N.land (N.shiftr val 18) 63)) as [E0 _]; [sextet_lt|].
    destruct (decode_sextet (N.land (N.shiftr val 12) 63)) as [E1 _]; [sextet_lt|].
    unfold DecodeString. rewrite E0, E1. cbn [mbind option_bind].
    rewrite decide_True by done. rewrite decide_True by done.
    rewrite (lor_add _ _ 18) by sextet_lt.
    rewrite (byte_of_eq _ a); [done|sextet_lt].
  - pose proof (uint_bound a) as Ha. pose proof (uint_bound b) as Hb.
    unfold EncodeToString.
    set (val := N.lor (N.shiftl (uint a) 16) (N.shiftl (uint b) 8)).
    assert (val = uint a * 65536 + uint b * 256) as Hval.
    { unfold val. rewrite (lor_add _ _ 16); sextet_lt. }
    destruct (decode_sextet (N.land (N.shiftr val 18) 63)) as [E0 _]; [sextet_lt|].
    destruct (decode_sextet (N.land (N.shiftr val 12) 63)) as [E1 _]; [sextet_lt|].
    destruct (decode_sextet (N.land (N.shiftr val 6) 63)) as [E2 N2]; [sextet_lt|].
    unfold DecodeString. rewrite E0, E1. cbn [mbind option_bind].
    rewrite decide_False by done. rewrite E2. cbn [mbind option_bind].
    rewrite decide_True by done. rewrite decide_True by done.
    rewrite (lor_add _ (N.shiftl _ 12) 18), (lor_add _ (N.shiftl _ 6) 12) by sextet_lt.
    rewrite (byte_of_eq _ a), (byte_of_eq _ b); [done|sextet_lt..].
  - pose proof (uint_bound a) as Ha. pose proof (uint_bound b) as Hb.
    pose proof (uint_bound c) as Hc.
    cbn [EncodeToString].
    set (val := N.lor (N.lor (N.shiftl (uint a) 16) (N.shiftl (uint b) 8)) (uint c)).
    assert (val = uint a * 65536 + uint b * 256 + uint c) as Hval
      by (by apply quantum_val).
    destruct (decode_sextet (N.land (N.shiftr val 18) 63)) as [E0 _]; [sextet_lt|].
    destruct (decode_sextet (N.land (N.shiftr val 12) 63)) as [E1 _]; [sextet_lt|].
    destruct (decode_sextet (N.land (N.shiftr val 6) 63)) as [E2 N2]; [sextet_lt|].
    destruct (decode_sextet (N.land val 63)) as [E3 N3]; [sextet_lt|].
    cbn [DecodeString]. rewrite E0, E1. cbn [mbind option_bind].
    rewrite decide_False by done. rewrite E2. cbn [mbind option_bind].
    rewrite decide_False by done. rewrite E3. cbn [mbind option_bind].
    rewrite IH. cbn [mbind option_bind].
    rewrite sextets_val by sextet_lt.
    rewrite (byte_of_eq _ a), (byte_of_eq _ b), (byte_of_eq _ c); [done|sextet_lt..].
Qed.

End Base64.

(** ** Tagging and pushing *)

Lemma TagImage_run cli v d :
  ∀ w, TagImage cli v d w
       = (Done (tag_error cli v d),
          add_trace [EvStdout ("Tagging image: " +:+ GetE2EImage v +:+ " to "
                               +:+ GetE2EImage d +:+ nl);
                     EvEngine (ImageTagCall (GetE2EImage v) (GetE2EImage d))] w).
Proof.
  assert (∃ r, ∀ w, TagImage cli v d w
       = (Done r,
          add_trace [EvStdout ("Tagging image: " +:+ GetE2EImage v +:+ " to "
                               +:+ GetE2EImage d +:+ nl);
                     EvEngine (ImageTagCall (GetE2EImage v) (GetE2EImage d))] w))
    as (r & H).
  { unfold TagImage, cli_ImageTag, fmt_Print, mbind, M_bind, emit, mret, M_ret.
    destruct (engine_ImageTag _ _ _); eexists; intros w;
      by rewrite !emit_world_add_trace, add_trace_app. }
  intros w. rewrite H. unfold tag_error, result_of. by rewrite H.
Qed.


(** One push: if the credentials marshal, the engine is asked once, then
    only stream reads follow; if they do not, the engine is not asked. *)
Lemma PushImage_run env cli d auth :
  ∃ rs, ∀ w,
    PushImage env cli d auth w
    = (Done (push_error env cli d auth),
       add_trace ((EvEngine <$> push_calls env d auth) ++ (EvRead <$> rs)) w).
Proof.
  assert (∃ r rs, ∀ w,
    PushImage env cli d auth w
    = (Done r, add_trace ((EvEngine <$> push_calls env d auth) ++ (EvRead <$> rs)) w))
    as (r & rs & H).
  { unfold PushImage, push_calls, cli_ImagePush, streamDockerMessages,
      mbind, M_bind, emit, mret, M_ret.
    destruct (json_Marshal env auth) as [err|authBytes].
    { eexists _, []. intros w. by rewrite add_trace_nil. }
    destruct (engine_ImagePush cli _ _) as [err|out].
    { by eexists _, []. }
    destruct (DisplayJSONMessagesStream env out) as [[err|] out'].
    { by eexists _, []. }
    destruct (ReadAll_run out') as (data & e & r' & rs & _ & _ & Hrun & _ & _).
    exists (match e with
            | Some err => Some (ErrWrap err ("error uploading image: " +:+ GetE2EImage d))
            | None => None
            end), rs.
    intros w. rewrite Hrun, emit_world_add_trace, add_trace_app. by destruct e. }
  exists rs. intros w. rewrite H. do 2 f_equal.
  unfold push_error, result_of. by rewrite H.
Qed.

(** C8: for every username and password, the push request carries as its
    registry-auth value the (URL-alphabet, padded) base64 encoding of the
    JSON serialization of the credentials structure, and nothing else is
    done to it: decoding the value gives the JSON bytes back. *)
Theorem PushImage_RegistryAuth env cli img u p authBytes w :
  json_Marshal env {| Username := u; Password := p |} = inr authBytes →
  (∃ r rs,
     PushImage env cli img {| Username := u; Password := p |} w
     = (Done r,
        add_trace (EvEngine (ImagePushCall (GetE2EImage img) (EncodeToString authBytes))
                   :: (EvRead <$> rs)) w))
  ∧ DecodeString (EncodeToString authBytes) = Some authBytes.
Proof.
  intros Hjson. split; [|apply DecodeString_EncodeToString].
  destruct (PushImage_run env cli img {| Username := u; Password := p |}) as (rs & H).
  exists (push_error env cli img {| Username := u; Password := p |}), rs.
  rewrite H. unfold push_calls. by rewrite Hjson.
Qed.

Lemma pushImages_body_run env cli privateImages auth kv :
  ∃ rs, ∀ w,
    pushImages_body env cli privateImages auth kv w
    = (Done tt,
       add_trace
         ([EvStdout ("Tagging image: " +:+ GetE2EImage kv.2 +:+ " to "
                     +:+ GetE2EImage (privateImages !!! kv.1) +:+ nl);
           EvEngine (ImageTagCall (GetE2EImage kv.2)
                                  (GetE2EImage (privateImages !!! kv.1)))]
          ++ tag_log cli kv.2 (privateImages !!! kv.1)
          ++ (EvEngine <$> push_calls env (privateImages !!! kv.1) auth)
          ++ (EvRead <$> rs)
          ++ push_log env cli kv.2 (privateImages !!! kv.1) auth
          ++ [EvStdout ("########" +:+ nl)]) w).
Proof.
  destruct kv as [k v]. simpl.
  destruct (PushImage_run env cli (privateImages !!! k) auth) as (rs & H).
  exists rs. intros w. unfold pushImages_body, mbind, M_bind.
  rewrite TagImage_run.
  assert (∀ w', (match tag_error cli v (privateImages !!! k) with
                 | Some err => LogError (ErrWrap err ("couldn't tag image: " +:+ GetE2EImage v))
                 | None => mret tt
                 end) w' = (Done tt, add_trace (tag_log cli v (privateImages !!! k)) w'))
    as ->.
  { intros w'. unfold tag_log. destruct tag_error; [done|].
    unfold mret, M_ret. by rewrite add_trace_nil. }
  rewrite H.
  assert (∀ w', (match push_error env cli (privateImages !!! k) auth with
                 | Some err => LogError (ErrWrap err ("couldn't push image: " +:+ GetE2EImage v))
                 | None => mret tt
                 end) w'
                = (Done tt, add_trace (push_log env cli v (privateImages !!! k) auth) w'))
    as ->.
  { intros w'. unfold push_log. destruct push_error; [done|].
    unfold mret, M_ret. by rewrite add_trace_nil. }
  unfold fmt_Println, emit. rewrite emit_world_add_trace, !add_trace_app.
  do 2 f_equal. by rewrite <- !app_assoc.
Qed.

Lemma pushImages_body_good env cli privateImages auth kv :
  pure_io (pushImages_body env cli privateImages auth kv)
  ∧ result_of (pushImages_body env cli privateImages auth kv) = Done tt.
Proof.
  destruct (pushImages_body_run env cli privateImages auth kv) as (rs & H). split.
  - by eapply pure_io_intro.
  - by apply (run_events _ _ _ H).
Qed.

Lemma pushImages_body_calls env cli privateImages auth kv :
  engine_calls (events_of (pushImages_body env cli privateImages auth kv))
  = ImageTagCall (GetE2EImage kv.2) (GetE2EImage (privateImages !!! kv.1))
    :: push_calls env (privateImages !!! kv.1) auth.
Proof.
  destruct (pushImages_body_run env cli privateImages auth kv) as (rs & H).
  destruct (run_events _ _ _ H) as [_ ->].
  rewrite !engine_calls_app, engine_calls_fmap, engine_calls_reads.
  unfold tag_log, push_log. destruct tag_error, push_error; simpl; by rewrite ?app_nil_r.
Qed.

Lemma pushImages_body_logged env cli privateImages auth kv :
  logged (events_of (pushImages_body env cli privateImages auth kv))
  = logged (tag_log cli kv.2 (privateImages !!! kv.1))
    ++ logged (push_log env cli kv.2 (privateImages !!! kv.1) auth).
Proof.
  destruct (pushImages_body_run env cli privateImages auth kv) as (rs & H).
  destruct (run_events _ _ _ H) as [_ ->].
  rewrite !logged_app, logged_fmap_engine, logged_reads. simpl. by rewrite app_nil_r.
Qed.

Lemma push_batch_run env cli privateImages auth order w :
  forM_ order (pushImages_body env cli privateImages auth) w
  = (Done tt, add_trace (batch_events (pushImages_body env cli privateImages auth) order) w).
Proof. apply forM__run. intros; apply pushImages_body_good. Qed.

Lemma push_batch_calls env cli privateImages auth order :
  engine_calls (batch_events (pushImages_body env cli privateImages auth) order)
  = code_TagAndPush_calls env privateImages auth order.
Proof.
  induction order as [|kv l IH]; [done|].
  rewrite batch_events_cons, engine_calls_app, pushImages_body_calls, IH. done.
Qed.



(** ** The override file *)









Lemma flags_GetString_ok flags name :
  all_string_flags flags → flags_Changed flags name = true →
  ∃ f, flags !! name = Some f ∧ flags_GetString flags name = inr (flag_value f).
Proof.
  intros Hall Hch. unfold flags_Changed, flags_GetString in *.
  destruct (flags !! name) as [f|] eqn:E; [|done].
  exists f. split; [done|]. rewrite decide_True; [done|]. by eapply Hall.
Qed.




(** ** listImages *)

Lemma listImages_no_file_read env flags :
  e2eRegistryConfig flags = EmptyString → io_only not_file_read (listImages env flags).
Proof.
  intros E. unfold listImages, NewRegistryList, cluster_Version, LogError, fmt_Println.
  rewrite E. simpl. solve_io_only.
Qed.

Lemma listImages_present env flags contents w :
  e2eRegistryConfig flags ≠ EmptyString →
  fs w !! e2eRegistryConfig flags = Some contents →
  listImages env flags w
  = listImages env (without_override flags)
      (add_trace [EvStat (e2eRegistryConfig flags)] w).
Proof.
  intros Hne Hfile. unfold listImages.
  rewrite (decide_True (P := 0 < String.length (e2eRegistryConfig flags)))
    by by apply nonempty_length.
  erewrite bind_done; [|by erewrite bind_done by (by eapply os_Stat_present)].
  done.
Qed.

(** C9: when the override path is non-empty and its file exists,
    [listImages] does what it does without any override path, the
    existence check apart: the registry list is built from the empty
    path, no file is read, and neither the outcome nor the output depends
    on what the file contains. *)
Theorem listImages_ignores_override_contents env flags contents w :
  e2eRegistryConfig flags ≠ EmptyString →
  fs w !! e2eRegistryConfig flags = Some contents →
  let path := e2eRegistryConfig flags in
  listImages env flags w
  = listImages env (without_override flags) (add_trace [EvStat path] w)
  ∧ ∃ r t,
      listImages env flags w = (r, add_trace (EvStat path :: t) w)
      ∧ (∀ p, EvReadFile p ∉ t)
      ∧ (∀ contents',
           listImages env flags (with_file path contents' w)
           = (r, add_trace (EvStat path :: t) (with_file path contents' w))).
Proof.
  intros Hne Hfile path. subst path. split; [by eapply listImages_present|].
  destruct (io_only_run _ _ (listImages_no_file_read env (without_override flags) eq_refl))
    as [Hrun Hno].
  exists (result_of (listImages env (without_override flags))),
         (events_of (listImages env (without_override flags))).
  split_and!.
  - erewrite listImages_present by done. by rewrite Hrun, add_trace_app.
  - intros p Hin. rewrite Forall_forall in Hno. apply (Hno _ Hin).
  - intros contents'.
    erewrite (listImages_present _ _ contents') by (done || apply lookup_insert_eq).
    by rewrite Hrun, add_trace_app.
Qed.

(** ** pushImages as its loop *)

Lemma GetImages_override env path contents override version w :
  path ≠ EmptyString →
  fs w !! path = Some contents →
  yaml_Unmarshal env contents = inr override →
  valid_version env version = true →
  GetImages env path version w
  = (Done (inr (resolve_images (apply_override env override (default_table env)) version)),
     add_trace [EvReadFile path] w).
Proof.
  intros Hne Hfile Hyaml Hv. unfold GetImages, NewRegistryList, GetImageConfigs.
  rewrite decide_False by done.
  unfold mbind, M_bind, ioutil_ReadFile, mret, M_ret. rewrite Hfile, Hyaml.
  simpl. by rewrite Hv.
Qed.

(** With a user name and a password from the environment, an existing
    override file that parses, the version and the clients, [pushImages]
    is its loop over the upstream set, the destinations being looked up
    in the set resolved with the override. *)
Lemma pushImages_runs_batch env imagesflags contents override version cli w :
  plugin imagesflags = "e2e" →
  e2eRegistryConfig imagesflags ≠ EmptyString →
  fs w !! e2eRegistryConfig imagesflags = Some contents →
  0 < String.length (username imagesflags) →
  String.length (viper_password env) ≠ 0 →
  kubeconfig_Get env = None →
  getSonobuoyClient env = None →
  sbc_Version env = inr version →
  valid_version env version = true →
  yaml_Unmarshal env contents = inr override →
  client_NewClientWithOpts env = inr cli →
  pushImages env imagesflags w
  = forM_ (range (range_order env) (resolve_images (default_table env) version))
      (pushImages_body env cli
         (resolve_images (apply_override env override (default_table env)) version)
         {| Username := username imagesflags; Password := viper_password env |})
      (add_trace [EvStat (e2eRegistryConfig imagesflags); EvVersion;
                  EvReadFile (e2eRegistryConfig imagesflags)] w).
Proof.
  intros Hp Hne Hfile Huser Hpass Hk Hs Hver Hvalid Hyaml Hcli. unfold pushImages.
  rewrite decide_True by done.
  erewrite bind_done by (by eapply os_Stat_present). cbn [os_IsNotExist].
  rewrite ret_bind.
  rewrite (decide_True (P := 0 < String.length (username imagesflags))) by done.
  rewrite (decide_False (P := String.length (viper_password env) = 0)) by done.
  rewrite ret_bind. cbv beta. rewrite Hk, Hs.
  erewrite bind_done by apply cluster_Version_run. rewrite Hver.
  erewrite bind_done by (by apply GetImages_default). cbv beta iota.
  erewrite bind_done by (by eapply GetImages_override). cbv beta iota.
  rewrite Hcli, !add_trace_app. done.
Qed.

(** ** Strings *)

Lemma append_cons x (a b : string) : String x a +:+ b = String x (a +:+ b).
Proof. reflexivity. Qed.

Lemma append_nil_r (s : string) : s +:+ EmptyString = s.
Proof. induction s as [|x s IH]; [done|]. by rewrite append_cons, IH. Qed.

Lemma append_assoc (a b c : string) : (a +:+ b) +:+ c = a +:+ b +:+ c.
Proof. induction a as [|x a IH]; [done|]. by rewrite !append_cons, IH. Qed.

Lemma length_append (a b : string) :
  String.length (a +:+ b) = String.length a + String.length b.
Proof. induction a as [|x a IH]; [done|]. rewrite append_cons. simpl. by rewrite IH. Qed.

Lemma substring_0_all (s : string) n :
  String.length s ≤ n → String.substring 0 n s = s.
Proof.
  revert n. induction s as [|c s IH]; intros [|n] H; simpl in *; try done; try lia.
  f_equal. apply IH. lia.
Qed.

Lemma substring_0_split n (s : string) : ∃ q, s = String.substring 0 n s +:+ q.
Proof.
  revert n. induction s as [|c s IH]; intros [|n]; simpl; eauto.
  destruct (IH n) as [q Hq]. exists q. by rewrite append_cons, <- Hq.
Qed.

Lemma substring_0_length n (s : string) :
  String.length (String.substring 0 n s) = n `min` String.length s.
Proof.
  revert n. induction s as [|c s IH]; intros [|n]; simpl; try done.
  by rewrite IH.
Qed.

(** ** The copy *)

Lemma copy_events_quiet t :
  Forall copy_event t → engine_calls t = [] ∧ logged t = [] ∧ printed t = [].
Proof.
  induction 1 as [|e t He _ (IH1 & IH2 & IH3)]; [done|].
  destruct e; try done.
Qed.

Lemma alter_present (f : string → string) (m : gmap string string) k c :
  m !! k = Some c → alter f k m = <[k := f c]> m.
Proof.
  intros H. apply map_eq. intros i. destruct (decide (i = k)) as [->|Hne].
  - by rewrite lookup_alter_eq, lookup_insert_eq, H.
  - by rewrite lookup_alter_ne, lookup_insert_ne.
Qed.

(** One round of [io.Copy]: the chunk read is written, as far as the
    disk has room, before the error that came with it is looked at. *)
Lemma io_Copy_cons dst data er rest w c :
  fs w !! dst = Some c →
  let n := String.length data `min` disk_free w in
  let w1 := {| fs := <[dst := c +:+ String.substring 0 n data]> (fs w);
               fs_denied := fs_denied w;
               disk_free := disk_free w - n;
               trace := trace w ++ [EvRead (data, er); EvWrite dst n] |} in
  let after (w' : World) : Outcome (option error * Reader) * World :=
    match er with
    | Some EOF => (Done (None, rest), w')
    | Some e => (Done (Some e, rest), w')
    | None => io_Copy dst rest w'
    end in
  io_Copy dst ((data, er) :: rest) w
  = if decide (0 < String.length data) then
      if decide (n < String.length data)
      then (Done (Some (ErrNew ("write " +:+ dst +:+ ": no space left on device")), rest), w1)
      else after w1
    else after (add_trace [EvRead (data, er)] w).
Proof.
  intros Hc n w1 after. subst after.
  cbn [io_Copy]. unfold mbind at 1, M_bind at 1. unfold emit at 1.
  unfold mbind at 1, M_bind at 1.
  destruct (decide (0 < String.length data)) as [Hpos|Hz].
  - unfold mbind at 1, M_bind at 1. unfold file_Write.
    cbn [fs disk_free emit_world fs_denied trace].
    fold n. rewrite (alter_present _ _ _ _ Hc), <- app_assoc. cbn [app]. fold w1.
    destruct (decide (n < String.length data)) as [Hlt|Hge]; [done|].
    rewrite decide_False by lia.
    unfold mret at 1, M_ret at 1. by destruct er as [[]|].
  - unfold mret at 1, M_ret at 1. rewrite emit_world_add_trace. by destruct er as [[]|].
Qed.

(** [io.Copy] into a file: what it appends to the file is a prefix of
    what the stream holds, each byte written is a byte of disk taken, and
    it does nothing but read and write.  It reports no error only when
    everything up to the end of the stream is written, which is what
    happens whenever the disk has room for the stream. *)
Lemma io_Copy_spec dst src : ∀ w c,
  fs w !! dst = Some c →
  ∃ cerr out w' p q t,
    io_Copy dst src w = (Done (cerr, out), w')
    ∧ fs w' = <[dst := c +:+ p]> (fs w)
    ∧ fs_denied w' = fs_denied w
    ∧ disk_free w' + String.length p = disk_free w
    ∧ trace w' = trace w ++ t ∧ Forall copy_event t
    ∧ stream_bytes src = p +:+ q
    ∧ (cerr = None → q = EmptyString ∧ out = stream_rest src ∧ end_error src = None)
    ∧ (String.length (stream_bytes src) ≤ disk_free w →
       q = EmptyString ∧ out = stream_rest src ∧ cerr = end_error src).
Proof.
  induction src as [|[data er] rest IH]; intros w c Hc.
  - exists None, [], (add_trace [EvRead (EmptyString, Some EOF)] w),
      EmptyString, EmptyString, [EvRead (EmptyString, Some EOF)].
    split_and!; try done.
    + simpl. by rewrite append_nil_r, insert_id.
    + by repeat constructor.
  - rewrite (io_Copy_cons _ _ _ _ _ _ Hc). cbv zeta.
    set (n := String.length data `min` disk_free w).
    assert (∀ w1 p1 t1,
      fs w1 = <[dst := c +:+ p1]> (fs w) → fs_denied w1 = fs_denied w →
      disk_free w1 + String.length p1 = disk_free w →
      trace w1 = trace w ++ t1 → Forall copy_event t1 →
      data = p1 →
      ∃ cerr out w' p q t,
        match er with
        | Some EOF => (Done (None, rest), w1)
        | Some e => (Done (Some e, rest), w1)
        | None => io_Copy dst rest w1
        end = (Done (cerr, out), w')
        ∧ fs w' = <[dst := c +:+ p]> (fs w)
        ∧ fs_denied w' = fs_denied w
        ∧ disk_free w' + String.length p = disk_free w
        ∧ trace w' = trace w ++ t ∧ Forall copy_event t
        ∧ stream_bytes ((data, er) :: rest) = p +:+ q
        ∧ (cerr = None → q = EmptyString ∧ out = stream_rest ((data, er) :: rest)
                          ∧ end_error ((data, er) :: rest) = None)
        ∧ (String.length (stream_bytes ((data, er) :: rest)) ≤ disk_free w →
           q = EmptyString ∧ out = stream_rest ((data, er) :: rest)
           ∧ cerr = end_error ((data, er) :: rest))) as Hafter.
    { intros w1 p1 t1 Hfs Hden Hfree Htr Hev <-.
      destruct er as [e|].
      - exists (if decide (e = EOF) then None else Some e), rest, w1, data, EmptyString, t1.
        split_and!; try done.
        + by destruct e.
        + simpl. by rewrite append_nil_r.
      - destruct (IH w1 (c +:+ data)) as
          (cerr & out & w' & p & q & t & Hrun & Hfs' & Hden' & Hfree' & Htr' & Hev'
           & Hbytes & Hnone & Hroom).
        { rewrite Hfs. apply lookup_insert_eq. }
        exists cerr, out, w', (data +:+ p), q, (t1 ++ t).
        split_and!; try done.
        + by rewrite Hfs', Hfs, insert_insert_eq, append_assoc.
        + congruence.
        + rewrite length_append. lia.
        + by rewrite Htr', Htr, app_assoc.
        + by apply Forall_app.
        + simpl. by rewrite Hbytes, append_assoc.
        + simpl. rewrite length_append. intros Hle. apply Hroom. lia. }
    destruct (decide (0 < String.length data)) as [Hpos|Hz].
    + destruct (decide (n < String.length data)) as [Hlt|Hge].
      * destruct (substring_0_split n data) as [q Hq].
        eexists _, rest, _, (String.substring 0 n data),
          (q +:+ match er with None => stream_bytes rest | Some _ => EmptyString end),
          [EvRead (data, er); EvWrite dst n].
        split_and!; try done.
        -- simpl. rewrite substring_0_length. lia.
        -- by repeat constructor.
        -- simpl. rewrite <- append_assoc, <- Hq. destruct er; by rewrite ?append_nil_r.
        -- simpl. intros Hle. exfalso.
           destruct er; rewrite ?length_append in Hle; lia.
      * apply (Hafter _ data [EvRead (data, er); EvWrite dst n]); try done.
        -- simpl. rewrite substring_0_all by lia. done.
        -- simpl. lia.
        -- by repeat constructor.
    + apply (Hafter _ data [EvRead (data, er)]); try done.
      * simpl. destruct data; [|simpl in Hz; lia]. by rewrite append_nil_r, insert_id.
      * simpl. destruct data; simpl in *; lia.
      * by repeat constructor.
Qed.

(** [ioutil.ReadAll] returns what the stream holds up to its end. *)
Lemma ReadAll_spec r :
  ∃ rs, ∀ w,
    ioutil_ReadAll r w
    = (Done (stream_bytes r, end_error r, stream_rest r), add_trace (EvRead <$> rs) w).
Proof.
  induction r as [|[data er] rest [rs IH]].
  - by exists [(EmptyString, Some EOF)].
  - destruct er as [x|].
    + exists [(data, Some x)]. intros w. simpl. unfold mbind, M_bind, emit.
      unfold end_error. simpl. by destruct x.
    + exists ((data, None) :: rs). intros w. simpl. unfold mbind, M_bind, emit.
      rewrite IH. simpl. unfold mret, M_ret.
      by rewrite emit_world_add_trace, add_trace_app.
Qed.

(** ** SaveToTar, in full *)

Lemma SaveToTar_spec cli images filepath w :
  ∃ r w' t,
    SaveToTar cli images filepath w = (Done r, w')
    ∧ trace w' = trace w ++ t ∧ fs_denied w' = fs_denied w
    ∧ logged t = [] ∧ printed t = []
    ∧ if decide (filepath ∈ fs_denied w) then
        fs w' = fs w ∧ disk_free w' = disk_free w ∧ engine_calls t = []
        ∧ ∃ err,
            r = Some (ErrWrap err ("Could not create tarball file '" +:+ filepath +:+ "'"))
      else
        engine_calls t = [ImageSaveCall images]
        ∧ match engine_ImageSave cli images with
          | inl err =>
              r = Some (ErrWrap err "error saving images to tar")
              ∧ fs w' = <[filepath := EmptyString]> (fs w) ∧ disk_free w' = disk_free w
          | inr out =>
              ∃ p q,
                fs w' = <[filepath := p]> (fs w) ∧ stream_bytes out = p +:+ q
                ∧ disk_free w' + String.length p = disk_free w
                ∧ (r = None → q = EmptyString)
                ∧ (String.length (stream_bytes out) ≤ disk_free w →
                   q = EmptyString ∧ r = save_result filepath out)
          end.
Proof.
  destruct (decide (filepath ∈ fs_denied w)) as [Hden|Hok].
  - exists (Some (ErrWrap (ErrNew ("open " +:+ filepath +:+ ": permission denied"))
                     ("Could not create tarball file '" +:+ filepath +:+ "'"))),
      (add_trace [EvCreate filepath] w), [EvCreate filepath].
    split_and!; try done.
    + unfold SaveToTar, mbind, M_bind, os_Create. by rewrite decide_True.
    + eauto.
  - destruct (engine_ImageSave cli images) as [err|out] eqn:Hsave.
    + exists (Some (ErrWrap err "error saving images to tar")),
        (export_requested images filepath w),
        [EvCreate filepath; EvEngine (ImageSaveCall images)].
      split_and!; try done.
      unfold SaveToTar, mbind at 1, M_bind at 1. rewrite (os_Create_ok _ _ Hok).
      unfold cli_ImageSave, mbind, M_bind, emit, mret, M_ret. rewrite Hsave.
      unfold export_requested, emit_world. simpl. by rewrite <- app_assoc.
    + destruct (io_Copy_spec filepath out (export_requested images filepath w) EmptyString)
        as (cerr & out1 & w2 & p & q & t & Hcopy & Hfs & Hdenied & Hfree & Htr & Hev
            & Hbytes & Hnone & Hroom).
      { apply lookup_insert_eq. }
      destruct (copy_events_quiet _ Hev) as (Hc & Hl & Hp).
      simpl in Hfs, Hdenied, Hfree, Htr. rewrite insert_insert_eq in Hfs.
      unfold SaveToTar. rewrite (SaveToTar_until_copy _ _ _ _ _ Hok Hsave).
      destruct cerr as [e|].
      * exists (Some (ErrWrap e (copy_failed_msg filepath))), w2,
          ([EvCreate filepath; EvEngine (ImageSaveCall images)] ++ t).
        split_and!; try done.
        -- unfold mbind, M_bind. by rewrite Hcopy.
        -- by rewrite Htr, <- app_assoc.
        -- by rewrite engine_calls_app, Hc.
        -- exists p, q. split_and!; try done.
           intros Hle. destruct (Hroom Hle) as (-> & _ & He). split; [done|].
           unfold save_result. by rewrite <- He.
      * destruct (Hnone eq_refl) as (-> & -> & Hend).
        destruct (ReadAll_spec (stream_rest out)) as (rs & Hrun).
        exists (match end_error (stream_rest out) with
                | Some err => Some (ErrWrap err "error exporting images")
                | None => None
                end), (add_trace (EvRead <$> rs) w2),
          ([EvCreate filepath; EvEngine (ImageSaveCall images)] ++ t ++ (EvRead <$> rs)).
        split_and!; try done.
        -- unfold mbind, M_bind. rewrite Hcopy, Hrun.
           by destruct (end_error (stream_rest out)).
        -- simpl. by rewrite Htr, <- !app_assoc.
        -- by rewrite !logged_app, Hl, logged_reads.
        -- by rewrite !printed_app, Hp, printed_reads.
        -- by rewrite !engine_calls_app, Hc, engine_calls_reads.
        -- exists p, EmptyString. split_and!; try done.
           intros _. split; [done|]. unfold save_result. by rewrite Hend.
Qed.


(** X2: a nil result of [SaveToTar] means that the archive is complete:
    the file holds every byte of the export stream, up to its end. *)
Theorem SaveToTar_nil_means_complete cli images filepath out w :
  filepath ∉ fs_denied w →
  engine_ImageSave cli images = inr out →
  (SaveToTar cli images filepath w).1 = Done None →
  fs (SaveToTar cli images filepath w).2 !! filepath = Some (stream_bytes out).
Proof.
  intros Hok Hsave.
  destruct (SaveToTar_spec cli images filepath w)
    as (r & w' & t & Hrun & _ & _ & _ & _ & H).
  rewrite decide_False in H by done. rewrite Hsave in H.
  destruct H as (_ & p & q & Hfs & Hbytes & _ & Hnil & _).
  rewrite Hrun. simpl. intros [= ->].
  rewrite Hfs, Hbytes, (Hnil eq_refl), append_nil_r. apply lookup_insert_eq.
Qed.



Lemma logged_fmap_log es : logged (EvLogError <$> es) = es.
Proof. unfold logged. induction es as [|e es IH]; [done|]. cbn. by rewrite IH. Qed.

Lemma logged_fmap_stdout ss : logged (EvStdout <$> ss) = [].
Proof. unfold logged. induction ss; [done|]. by cbn. Qed.

Lemma printed_fmap_stdout ss : printed (EvStdout <$> ss) = ss.
Proof. unfold printed. induction ss as [|s ss IH]; [done|]. cbn. by rewrite IH. Qed.

Lemma printed_fmap_log es : printed (EvLogError <$> es) = [].
Proof. unfold printed. induction es; [done|]. by cbn. Qed.

Lemma engine_calls_fmap_log es : engine_calls (EvLogError <$> es) = [].
Proof. unfold engine_calls. induction es; [done|]. by cbn. Qed.

Lemma engine_calls_fmap_stdout ss : engine_calls (EvStdout <$> ss) = [].
Proof. unfold engine_calls. induction ss; [done|]. by cbn. Qed.

Lemma length_nonempty (s : string) : 0 < String.length s ↔ s ≠ EmptyString.
Proof. destruct s; simpl; split; (done || lia). Qed.

(** ** downloadImages *)

Lemma downloadImages_runs_SaveToTar env imagesflags version upstreamImages cli w w1 :
  plugin imagesflags = "e2e" →
  kubeconfig_Get env = None →
  getSonobuoyClient env = None →
  sbc_Version env = inr version →
  GetImages env EmptyString version (add_trace [EvVersion] w)
  = (Done (inr upstreamImages), w1) →
  client_NewClientWithOpts env = inr cli →
  downloadImages env imagesflags w
  = (err ← SaveToTar cli (image_refs (range (range_order env) upstreamImages))
             (GetTarFileName version);
     match err with
     | Some err => LogError (ErrWrap err "couldn't save images to tar");; os_Exit 1
     | None => mret tt
     end) w1.
Proof.
  intros Hp Hk Hs Hver Hup Hcli. unfold downloadImages.
  rewrite decide_True by done. rewrite Hk, Hs.
  erewrite bind_done by apply cluster_Version_run. rewrite Hver.
  erewrite bind_done by exact Hup. cbv beta iota. by rewrite Hcli.
Qed.

(** X5: once the cluster version, the image set and the docker client are
    there, [downloadImages] asks the engine for one export of all the
    references of the set together, into the file named after the
    version, and touches no other file.  It ends normally only when the
    archive is complete; any failure of [SaveToTar] is logged and ends the
    run with exit status 1. *)
Theorem downloadImages_single_export env imagesflags version upstreamImages cli w w1 :
  plugin imagesflags = "e2e" →
  kubeconfig_Get env = None →
  getSonobuoyClient env = None →
  sbc_Version env = inr version →
  GetImages env EmptyString version (add_trace [EvVersion] w)
  = (Done (inr upstreamImages), w1) →
  client_NewClientWithOpts env = inr cli →
  let name := GetTarFileName version in
  let refs := image_refs (range (range_order env) upstreamImages) in
  ∃ r w' t,
    downloadImages env imagesflags w = (r, w')
    ∧ trace w' = trace w1 ++ t
    ∧ engine_calls t = (if decide (name ∈ fs_denied w1) then [] else [ImageSaveCall refs])
    ∧ (∀ path, path ≠ name → fs w' !! path = fs w1 !! path)
    ∧ (r = Done tt ∧ logged t = []
       ∧ (∃ out, engine_ImageSave cli refs = inr out
                 ∧ fs w' !! name = Some (stream_bytes out))
       ∨ r = Exited 1 ∧ ∃ err, logged t = [ErrWrap err "couldn't save images to tar"]).
Proof.
  intros Hp Hk Hs Hver Hup Hcli name refs.
  rewrite (downloadImages_runs_SaveToTar _ _ _ _ _ _ _ Hp Hk Hs Hver Hup Hcli).
  fold refs name.
  destruct (SaveToTar_spec cli refs name w1)
    as (r & w' & t & Hrun & Htr & _ & Hl & _ & H).
  assert (engine_calls t = (if decide (name ∈ fs_denied w1) then [] else [ImageSaveCall refs])
          ∧ (∀ path, path ≠ name → fs w' !! path = fs w1 !! path)
          ∧ (r = None → ∃ out, engine_ImageSave cli refs = inr out
                               ∧ fs w' !! name = Some (stream_bytes out)))
    as (Hcalls & Hframe & Hnil).
  { destruct (decide (name ∈ fs_denied w1)) as [Hden|Hok].
    - destruct H as (Hfs & _ & Hc & err & ->). split_and!; try done.
      intros. by rewrite Hfs.
    - destruct H as (Hc & H). split; [done|].
      destruct (engine_ImageSave cli refs) as [err|out].
      + destruct H as (-> & -> & _). split; [|done].
        intros. by rewrite lookup_insert_ne.
      + destruct H as (p & q & -> & Hbytes & _ & Hq & _). split.
        * intros. by rewrite lookup_insert_ne.
        * intros Hr. exists out. split; [done|].
          rewrite Hbytes, (Hq Hr), append_nil_r. apply lookup_insert_eq. }
  destruct r as [err|].
  - exists (Exited 1), (add_trace [EvLogError (ErrWrap err "couldn't save images to tar")] w'),
      (t ++ [EvLogError (ErrWrap err "couldn't save images to tar")]).
    split_and!.
    + erewrite bind_done by done. by log_exit.
    + simpl. rewrite Htr. by rewrite <- !app_assoc.
    + rewrite !engine_calls_app, Hcalls. simpl. by rewrite app_nil_r.
    + done.
    + right. split; [done|]. exists err. by rewrite !logged_app, Hl.
  - exists (Done tt), w', t.
    split_and!; try done.
    + by erewrite bind_done by done.
    + left. split_and!; [done|done|by apply Hnil].
Qed.

(** ** GetTarFileName *)

Lemma append_inj_r (a b s : string) : a +:+ s = b +:+ s → a = b.
Proof.
  revert b. induction a as [|x a IH]; intros [|y b] H; try done.
  - apply (f_equal String.length) in H. rewrite !length_append in H. simpl in H. lia.
  - apply (f_equal String.length) in H. rewrite !length_append in H. simpl in H. lia.
  - rewrite !append_cons in H. injection H as -> H. f_equal. by apply IH.
Qed.

(** X6: the archives of two different versions have different file names,
    so that a download for one version never overwrites the archive of
    another. *)
Theorem GetTarFileName_distinct v1 v2 :
  v1 ≠ v2 → GetTarFileName v1 ≠ GetTarFileName v2.
Proof.
  intros Hne Heq. apply Hne. unfold GetTarFileName in Heq.
  apply (inj (String.append "kubernetes_e2e_images_")) in Heq.
  by apply append_inj_r in Heq.
Qed.

(** ** The delete batch *)

Lemma delete_items_run (resp : list ImageDeleteResponseItem) w :
  forM_ resp (λ r,
    fmt_Print ("Deleted: " +:+ Deleted r +:+ nl);;
    if decide (0 < String.length (Untagged r))
    then fmt_Print ("Untagged: " +:+ Untagged r +:+ nl)
    else mret tt) w
  = (Done tt, add_trace (EvStdout <$> delete_lines resp) w).
Proof.
  revert w. induction resp as [|r resp IH]; intros w.
  - simpl. unfold mret, M_ret. by rewrite add_trace_nil.
  - cbn [forM_]. unfold mbind at 1, M_bind at 1. unfold mbind at 1, M_bind at 1.
    unfold fmt_Print at 1, emit at 1.
    unfold delete_lines. rewrite bind_cons. fold (delete_lines resp).
    destruct (decide (0 < String.length (Untagged r))) as [Hpos|Hz].
    + rewrite decide_False by by apply length_nonempty.
      unfold fmt_Print, emit. rewrite IH, !emit_world_add_trace, !add_trace_app. done.
    + rewrite decide_True by (destruct (Untagged r); [done|simpl in Hz; lia]).
      unfold mret at 1, M_ret at 1. rewrite IH, !emit_world_add_trace, !add_trace_app. done.
Qed.

Lemma DeleteImage_run cli v w :
  DeleteImage cli v w
  = (Done (match engine_ImageRemove cli (GetE2EImage v) with
           | inl err =>
               ([], Some (ErrWrap err ("error deleting image: " +:+ GetE2EImage v)))
           | inr out => (out, None)
           end),
     add_trace [EvEngine (ImageRemoveCall (GetE2EImage v))] w).
Proof.
  unfold DeleteImage, cli_ImageRemove, mbind, M_bind, emit, mret, M_ret.
  by destruct (engine_ImageRemove cli (GetE2EImage v)).
Qed.

Lemma deleteImages_body_run cli kv w :
  deleteImages_body cli kv w
  = (Done tt,
     add_trace ([EvEngine (ImageRemoveCall (GetE2EImage kv.2))]
                ++ (EvLogError <$> delete_log cli kv.2)
                ++ (EvStdout <$> delete_output cli kv.2)) w).
Proof.
  destruct kv as [k v]. simpl.
  unfold deleteImages_body, delete_log, delete_output.
  erewrite bind_done by apply DeleteImage_run.
  destruct (engine_ImageRemove cli (GetE2EImage v)) as [err|resp]; cbv beta iota.
  - erewrite bind_done by reflexivity.
    erewrite bind_done by reflexivity.
    unfold fmt_Println, emit.
    by rewrite !emit_world_add_trace, !add_trace_app.
  - rewrite ret_bind.
    erewrite bind_done by apply delete_items_run.
    unfold fmt_Println, emit.
    rewrite !emit_world_add_trace, !add_trace_app. do 2 f_equal.
    by rewrite fmap_app.
Qed.

Lemma deleteImages_body_good cli kv :
  pure_io (deleteImages_body cli kv) ∧ result_of (deleteImages_body cli kv) = Done tt.
Proof.
  split.
  - eapply pure_io_intro. apply deleteImages_body_run.
  - eapply run_events. apply deleteImages_body_run.
Qed.

Lemma delete_batch_run cli order w :
  forM_ order (deleteImages_body cli) w
  = (Done tt, add_trace (batch_events (deleteImages_body cli) order) w).
Proof. apply forM__run. intros; apply deleteImages_body_good. Qed.

Lemma delete_batch_events cli order :
  engine_calls (batch_events (deleteImages_body cli) order) = remove_calls order
  ∧ logged (batch_events (deleteImages_body cli) order)
    = order ≫= (λ kv, delete_log cli kv.2)
  ∧ printed (batch_events (deleteImages_body cli) order)
    = order ≫= (λ kv, delete_output cli kv.2).
Proof.
  induction order as [|kv l (IH1 & IH2 & IH3)]; [done|].
  destruct (run_events _ _ _ (deleteImages_body_run cli kv)) as [_ He].
  rewrite batch_events_cons, He, !bind_cons.
  rewrite !engine_calls_app, !logged_app, !printed_app, IH1, IH2, IH3.
  rewrite engine_calls_fmap_log, engine_calls_fmap_stdout, logged_fmap_log,
    logged_fmap_stdout, printed_fmap_log, printed_fmap_stdout.
  simpl. by rewrite app_nil_r.
Qed.

(** X7: the delete batch asks the engine to remove every image of the set,
    each once and in the order of the range, whatever the engine answers:
    a refusal is logged with the reference of the image and the batch goes
    on to its end.  For every item of a response it prints a "Deleted"
    line, and an "Untagged" line only when the item names an untagged
    reference; after every image, removed or not, the separator. *)
Theorem deleteImages_batch cli (order : list (string * Config)) w :
  ∃ t,
    forM_ order (deleteImages_body cli) w = (Done tt, add_trace t w)
    ∧ engine_calls t = remove_calls order
    ∧ logged t = order ≫= (λ kv, delete_log cli kv.2)
    ∧ printed t = order ≫= (λ kv, delete_output cli kv.2).
Proof.
  exists (batch_events (deleteImages_body cli) order).
  split; [apply delete_batch_run|apply delete_batch_events].
Qed.

(** X8: [deleteImages] removes the images of the set resolved from the
    override path it is given, one removal for each image of that set, and
    ends normally even if the engine refuses every removal. *)
Theorem deleteImages_removes_resolved_set env imagesflags version images cli w w1 :
  plugin imagesflags = "e2e" →
  kubeconfig_Get env = None →
  getSonobuoyClient env = None →
  sbc_Version env = inr version →
  GetImages env (e2eRegistryConfig imagesflags) version (add_trace [EvVersion] w)
  = (Done (inr images), w1) →
  client_NewClientWithOpts env = inr cli →
  ∃ t,
    deleteImages env imagesflags w = (Done tt, add_trace t w1)
    ∧ engine_calls t = remove_calls (range (range_order env) images)
    ∧ length (engine_calls t) = size images.
Proof.
  intros Hp Hk Hs Hver Himages Hcli.
  exists (batch_events (deleteImages_body cli) (range (range_order env) images)).
  destruct (delete_batch_events cli (range (range_order env) images)) as (Hc & _).
  split_and!; [|done|].
  - unfold deleteImages. rewrite decide_True by done. rewrite Hk, Hs.
    erewrite bind_done by apply cluster_Version_run. rewrite Hver.
    erewrite bind_done by done. cbv beta iota. rewrite Hcli.
    apply delete_batch_run.
  - rewrite Hc. unfold remove_calls.
    rewrite length_fmap, (range_perm (range_order env) images).
    apply length_map_to_list.
Qed.

(** ** GetE2EConfig *)

Lemma flag_or_unchanged flags name dflt :
  flags_Changed flags name = false → flag_or flags name dflt = dflt.
Proof.
  unfold flags_Changed, flag_or. destruct (flags !! name) as [f|]; [|done].
  by intros ->.
Qed.

Lemma flag_or_changed flags name dflt :
  all_string_flags flags → flags_Changed flags name = true →
  flags_GetString flags name = inr (flag_or flags name dflt).
Proof.
  intros Hall Hch. destruct (flags_GetString_ok _ _ Hall Hch) as (f & Hf & ->).
  unfold flag_or, flags_Changed in *. rewrite Hf in *. by rewrite Hch.
Qed.

(** X9: [GetE2EConfig] overlays the flags on the configuration of the
    mode, field by field: a field takes the value of its flag when the
    command line set the flag, were it the empty string, and keeps the
    value of the mode otherwise.  The registries are the unchanged
    contents of the file that the registry flag names, which is the only
    thing read; without that flag nothing is read at all. *)
Theorem GetE2EConfig_overlays_flags env mode flags w :
  all_string_flags flags →
  let cfg := mode_E2EConfig env mode in
  let overlay (registries : string) :=
    {| Focus := flag_or flags e2eFocusFlag (Focus cfg);
       Skip := flag_or flags e2eSkipFlag (Skip cfg);
       Parallel := flag_or flags e2eParallelFlag (Parallel cfg);
       CustomRegistries := registries |} in
  let repoFile := flag_or flags e2eRegistryConfigFlag EmptyString in
  (flags_Changed flags e2eRegistryConfigFlag = false →
   GetE2EConfig env mode flags w = (Done (inr (overlay (CustomRegistries cfg))), w))
  ∧ (∀ contents override,
       flags_Changed flags e2eRegistryConfigFlag = true →
       fs w !! repoFile = Some contents →
       yaml_Unmarshal env contents = inr override →
       GetE2EConfig env mode flags w
       = (Done (inr (overlay contents)), add_trace [EvReadFile repoFile] w)).
Proof.
  intros Hall cfg overlay repoFile. subst overlay repoFile.
  assert (
    GetE2EConfig env mode flags w
    = (if flags_Changed flags e2eRegistryConfigFlag then
         match flags_GetString flags e2eRegistryConfigFlag with
         | inl err => mret (inl (ErrWrap err "couldn't retrieve registry list flag"))
         | inr repoFile =>
             r ← ioutil_ReadFile repoFile;
             match r with
             | inl err => mret (inl (ErrWrap err "couldn't read registry list"))
             | inr contents =>
                 match yaml_Unmarshal env contents with
                 | inl err => mret (inl (ErrWrap err "failed to parse yaml registry list:"))
                 | inr _ =>
                     mret (inr {| Focus := flag_or flags e2eFocusFlag (Focus cfg);
                                  Skip := flag_or flags e2eSkipFlag (Skip cfg);
                                  Parallel := flag_or flags e2eParallelFlag (Parallel cfg);
                                  CustomRegistries := contents |})
                 end
             end
         end
       else mret (inr {| Focus := flag_or flags e2eFocusFlag (Focus cfg);
                         Skip := flag_or flags e2eSkipFlag (Skip cfg);
                         Parallel := flag_or flags e2eParallelFlag (Parallel cfg);
                         CustomRegistries := CustomRegistries cfg |})) w) as Hrun.
  { unfold GetE2EConfig. fold cfg.
    destruct (flags_Changed flags e2eFocusFlag) eqn:E1.
    all: try rewrite (flag_or_changed _ _ (Focus cfg) Hall E1).
    all: try rewrite (flag_or_unchanged _ _ (Focus cfg) E1).
    all: destruct (flags_Changed flags e2eSkipFlag) eqn:E2.
    all: try rewrite (flag_or_changed _ _ (Skip cfg) Hall E2).
    all: try rewrite (flag_or_unchanged _ _ (Skip cfg) E2).
    all: destruct (flags_Changed flags e2eParallelFlag) eqn:E3.
    all: try rewrite (flag_or_changed _ _ (Parallel cfg) Hall E3).
    all: try rewrite (flag_or_unchanged _ _ (Parallel cfg) E3).
    all: cbn [Focus Skip Parallel CustomRegistries].
    all: by destruct cfg. }
  split.
  - intros Hch. by rewrite Hrun, Hch.
  - intros contents override Hch Hfile Hyaml. rewrite Hrun, Hch.
    rewrite (flag_or_changed _ _ EmptyString Hall Hch).
    unfold mbind, M_bind, ioutil_ReadFile. by rewrite Hfile, Hyaml.
Qed.

(** ** AddE2EConfigFlags *)

(** X10: the flag set that [AddE2EConfigFlags] returns holds string flags
    only, none of them set, so that [GetE2EConfig] on it cannot fail and
    gives the configuration of whichever mode is asked for, untouched and
    without reading anything; and the flags that the caller had already
    defined are kept as they were. *)
Theorem AddE2EConfigFlags_fresh env Conformance flags mode w :
  let e2eFlags := (AddE2EConfigFlags env Conformance flags).1 in
  let flags' := (AddE2EConfigFlags env Conformance flags).2 in
  all_string_flags e2eFlags
  ∧ dom e2eFlags
    = {[ e2eFocusFlag; e2eSkipFlag; e2eParallelFlag; e2eRegistryConfigFlag ]}
  ∧ (∀ name, flags_Changed e2eFlags name = false)
  ∧ GetE2EConfig env mode e2eFlags w = (Done (inr (mode_E2EConfig env mode)), w)
  ∧ (∀ name f, flags !! name = Some f → flags' !! name = Some f)
  ∧ (∀ name, flags !! name = None → flags' !! name = e2eFlags !! name).
Proof.
  intros e2eFlags flags'.
  assert (all_string_flags e2eFlags) as Hall.
  { unfold e2eFlags, AddE2EConfigFlags, FlagSet_String. cbn [fst].
    repeat (apply map_Forall_insert_2; [done|]). apply map_Forall_empty. }
  assert (∀ name, flags_Changed e2eFlags name = false) as Hunchanged.
  { intros name. unfold flags_Changed.
    destruct (e2eFlags !! name) as [f|] eqn:Hf; [|done].
    unfold e2eFlags, AddE2EConfigFlags, FlagSet_String in Hf. cbn [fst] in Hf.
    repeat (apply lookup_insert_Some in Hf as [[_ <-]|[_ Hf]]; [done|]).
    done. }
  split_and!; try done.
  - intros name f Hf. unfold flags', AddE2EConfigFlags, FlagSet_AddFlagSet. cbn [snd].
    by apply lookup_union_Some_l.
  - intros name Hf. unfold flags', AddE2EConfigFlags, FlagSet_AddFlagSet. cbn [snd].
    by rewrite lookup_union_r.
Qed.

(** ** What the commands keep to *)

Lemma appends_only_ret {A} P (a : A) : appends_only P (mret a).
Proof. intros w. exists (Done a), []. by rewrite add_trace_nil. Qed.

Lemma appends_only_emit (P : Event → Prop) e : P e → appends_only P (emit e).
Proof. intros HP w. exists (Done tt), [e]. split; [done|]. by constructor. Qed.

Lemma appends_only_exit {A} P c : appends_only P (@os_Exit A c).
Proof. intros w. exists (Exited c), []. by rewrite add_trace_nil. Qed.

Lemma appends_only_bind {A B} P (m : M A) (f : A → M B) :
  appends_only P m → (∀ a, appends_only P (f a)) → appends_only P (m ≫= f).
Proof.
  intros Hm Hf w. destruct (Hm w) as (r & t & Hrun & Ht). destruct r as [a|c].
  - destruct (Hf a (add_trace t w)) as (r' & t' & Hrun' & Ht').
    exists r', (t ++ t'). split; [|by apply Forall_app].
    unfold mbind, M_bind. by rewrite Hrun, Hrun', add_trace_app.
  - exists (Exited c), t. split; [|done]. unfold mbind, M_bind. by rewrite Hrun.
Qed.

Lemma appends_only_forM_ {A} P (l : list A) (body : A → M unit) :
  (∀ x, appends_only P (body x)) → appends_only P (forM_ l body).
Proof.
  intros Hb. induction l as [|x l IH]; simpl.
  - apply appends_only_ret.
  - apply appends_only_bind; auto.
Qed.

Lemma appends_only_Stat (P : Event → Prop) path :
  P (EvStat path) → appends_only P (os_Stat path).
Proof. intros HP w. eexists _, [EvStat path]. split; [done|]. by constructor. Qed.

Lemma appends_only_ReadFile (P : Event → Prop) path :
  P (EvReadFile path) → appends_only P (ioutil_ReadFile path).
Proof. intros HP w. eexists _, [EvReadFile path]. split; [done|]. by constructor. Qed.

Lemma appends_only_ReadAll (P : Event → Prop) r :
  (∀ x, P (EvRead x)) → appends_only P (ioutil_ReadAll r).
Proof.
  intros HP w. destruct (ReadAll_spec r) as (rs & Hrun).
  eexists _, _. split; [apply Hrun|]. apply Forall_fmap, Forall_true. intros x. apply HP.
Qed.

Ltac appends_only_step :=
  match goal with
  | |- appends_only _ (mbind _ _) => apply appends_only_bind; [|intros]
  | |- appends_only _ (mret _) => apply appends_only_ret
  | |- appends_only _ (emit _) => apply appends_only_emit; exact I
  | |- appends_only _ (os_Exit _) => apply appends_only_exit
  | |- appends_only _ (os_Stat _) => apply appends_only_Stat; exact I
  | |- appends_only _ (ioutil_ReadFile _) => apply appends_only_ReadFile; exact I
  | |- appends_only _ (ioutil_ReadAll _) => apply appends_only_ReadAll; intros; exact I
  | |- appends_only _ (forM_ _ _) => apply appends_only_forM_; intros
  | |- appends_only _ (match ?x with _ => _ end) => destruct x
  end.

Ltac solve_appends_only := repeat appends_only_step.

(** X11: what the commands other than download never do.  Each of them only
    appends to the trace (the files and the disk are left as they were),
    and [listImages] asks nothing of the engine and reads no file,
    [pullImages] asks the engine for pulls only and touches no file,
    [pushImages] for tags and pushes only, [deleteImages] for removals
    only. *)
Theorem commands_keep_to_their_requests env imagesflags :
  appends_only list_event (listImages env imagesflags)
  ∧ appends_only pull_event (pullImages env imagesflags)
  ∧ appends_only push_event (pushImages env imagesflags)
  ∧ appends_only delete_event (deleteImages env imagesflags).
Proof.
  split_and!.
  - unfold listImages, NewRegistryList, cluster_Version, LogError, fmt_Println.
    simpl. solve_appends_only.
  - unfold pullImages, GetImages, NewRegistryList, cluster_Version, pullImages_body,
      PullImage, cli_ImagePull, streamDockerMessages, LogError, fmt_Println.
    simpl. solve_appends_only.
  - unfold pushImages, GetImages, NewRegistryList, cluster_Version, pushImages_body,
      TagImage, PushImage, cli_ImageTag, cli_ImagePush, streamDockerMessages,
      LogError, fmt_Println, fmt_Print.
    simpl. solve_appends_only.
  - unfold deleteImages, GetImages, NewRegistryList, cluster_Version, deleteImages_body,
      DeleteImage, cli_ImageRemove, LogError, fmt_Println, fmt_Print.
    simpl. solve_appends_only.
Qed.

(** ** Giving up before the engine *)

(** X12: a plugin other than "e2e" is refused by every command with exit
    status 1 and nothing else done.  [pushImages] looks at the plugin
    before it looks for the override file; [listImages] looks for the file
    first, so that it is only with that file in place, or no override path,
    that it gets to refuse the plugin. *)
Theorem unsupported_plugin_refused env imagesflags w :
  plugin imagesflags ≠ "e2e" →
  let path := e2eRegistryConfig imagesflags in
  let refusal := EvLogError (ErrNew ("Unsupported plugin: " +:+ plugin imagesflags)) in
  pullImages env imagesflags w = (Exited 1, add_trace [refusal] w)
  ∧ downloadImages env imagesflags w = (Exited 1, add_trace [refusal] w)
  ∧ pushImages env imagesflags w = (Exited 1, add_trace [refusal] w)
  ∧ deleteImages env imagesflags w = (Exited 1, add_trace [refusal] w)
  ∧ (path = EmptyString → listImages env imagesflags w = (Exited 1, add_trace [refusal] w))
  ∧ (path ≠ EmptyString → is_Some (fs w !! path) →
     listImages env imagesflags w = (Exited 1, add_trace [EvStat path; refusal] w)).
Proof.
  intros Hp path refusal. subst path refusal. split_and!.
  - unfold pullImages. rewrite decide_False by done. log_exit.
  - unfold downloadImages. rewrite decide_False by done. log_exit.
  - unfold pushImages. rewrite decide_False by done. log_exit.
  - unfold deleteImages. rewrite decide_False by done. log_exit.
  - intros E. unfold listImages. rewrite E. simpl.
    rewrite ret_bind. rewrite decide_False by done. log_exit.
  - intros Hne [contents Hfile]. rewrite (listImages_present _ _ contents) by done.
    unfold listImages. simpl. rewrite ret_bind. rewrite decide_False by done. log_exit.
Qed.




(** X14: when the docker client cannot be created, the commands that need
    it log that error and end with exit status 1 once the images are
    resolved: nothing is asked of an engine and, for the download, no
    archive file is created. *)
Theorem docker_client_failure_aborts env imagesflags version images err w w1 :
  plugin imagesflags = "e2e" →
  kubeconfig_Get env = None →
  getSonobuoyClient env = None →
  sbc_Version env = inr version →
  client_NewClientWithOpts env = inl err →
  let failed (run : Outcome unit * World) :=
    run = (Exited 1,
           add_trace [EvLogError (ErrWrap err "couldn't init docker client")] w1) in
  (GetImages env EmptyString version (add_trace [EvVersion] w) = (Done (inr images), w1) →
   failed (pullImages env imagesflags w) ∧ failed (downloadImages env imagesflags w))
  ∧ (GetImages env (e2eRegistryConfig imagesflags) version (add_trace [EvVersion] w)
     = (Done (inr images), w1) →
     failed (deleteImages env imagesflags w)).
Proof.
  intros Hp Hk Hs Hver Hcli failed. subst failed. cbv beta. split.
  - intros Hup. split.
    + unfold pullImages. rewrite decide_True by done. rewrite Hk, Hs.
      erewrite bind_done by apply cluster_Version_run. rewrite Hver.
      erewrite bind_done by exact Hup. cbv beta iota. rewrite Hcli. log_exit.
    + unfold downloadImages. rewrite decide_True by done. rewrite Hk, Hs.
      erewrite bind_done by apply cluster_Version_run. rewrite Hver.
      erewrite bind_done by exact Hup. cbv beta iota. rewrite Hcli. log_exit.
  - intros Hup.
    unfold deleteImages. rewrite decide_True by done. rewrite Hk, Hs.
    erewrite bind_done by apply cluster_Version_run. rewrite Hver.
    erewrite bind_done by exact Hup. cbv beta iota. rewrite Hcli. log_exit.
Qed.

(** ** listImages *)

Lemma list_batch_run (order : list (string * Config)) w :
  forM_ order (λ '(_, v), fmt_Println (GetE2EImage v)) w
  = (Done tt, add_trace (EvStdout <$> list_lines order) w).
Proof.
  revert w. induction order as [|[k v] l IH]; intros w.
  - simpl. unfold mret, M_ret. by rewrite add_trace_nil.
  - cbn [forM_]. erewrite bind_done by reflexivity.
    rewrite IH, emit_world_add_trace, add_trace_app. done.
Qed.

(** X15: with the version of the cluster and the registry list in hand,
    [listImages] prints the reference of every image of the set, each on a
    line of its own and in the order of the range, and ends normally; it
    logs nothing and asks nothing of the engine (it does not even create
    the docker client). *)
Theorem listImages_prints_every_reference env imagesflags version registry images w w1 :
  e2eRegistryConfig imagesflags = EmptyString →
  plugin imagesflags = "e2e" →
  kubeconfig_Get env = None →
  getSonobuoyClient env = None →
  sbc_Version env = inr version →
  NewRegistryList env EmptyString version (add_trace [EvVersion] w)
  = (Done (inr registry), w1) →
  GetImageConfigs env registry = inr images →
  ∃ t,
    listImages env imagesflags w = (Done tt, add_trace t w1)
    ∧ printed t = list_lines (range (range_order env) images)
    ∧ length (printed t) = size images
    ∧ logged t = [] ∧ engine_calls t = [].
Proof.
  intros E Hp Hk Hs Hver Hreg Himages.
  exists (EvStdout <$> list_lines (range (range_order env) images)).
  split_and!.
  - unfold listImages. rewrite E. simpl. rewrite ret_bind.
    rewrite decide_True by done. rewrite Hk, Hs.
    erewrite bind_done by apply cluster_Version_run. rewrite Hver.
    erewrite bind_done by exact Hreg. cbv beta iota. rewrite Himages.
    apply list_batch_run.
  - apply printed_fmap_stdout.
  - rewrite printed_fmap_stdout. unfold list_lines.
    rewrite length_fmap, (range_perm (range_order env) images).
    apply length_map_to_list.
  - apply logged_fmap_stdout.
  - apply engine_calls_fmap_stdout.
Qed.

(** ** The pull command *)

Lemma pull_failures_logged env cli order :
  order ≫= (λ kv, logged (pull_log env cli kv.2)) = pull_failures env cli order.
Proof.
  unfold pull_failures. induction order as [|kv l IH]; [done|].
  rewrite bind_cons, IH. unfold pull_log. cbn [omap list_omap].
  by destruct (pull_error env cli kv.2).
Qed.

(** X16: once the version, the image set and the docker client are there,
    [pullImages] asks the engine for every image of the set and ends
    normally however many of the pulls fail: each failure is logged, with
    the reference of its image, and changes nothing else. *)
Theorem pullImages_logs_every_failure env imagesflags version upstreamImages cli w w1 :
  plugin imagesflags = "e2e" →
  kubeconfig_Get env = None →
  getSonobuoyClient env = None →
  sbc_Version env = inr version →
  GetImages env EmptyString version (add_trace [EvVersion] w)
  = (Done (inr upstreamImages), w1) →
  client_NewClientWithOpts env = inr cli →
  let order := range (range_order env) upstreamImages in
  ∃ t,
    pullImages env imagesflags w = (Done tt, add_trace t w1)
    ∧ engine_calls t = pull_calls order
    ∧ logged t = pull_failures env cli order
    ∧ length (logged t)
      = length (filter (λ kv, is_Some (pull_error env cli kv.2)) order)
    ∧ printed t = replicate (length order) ("########" +:+ nl).
Proof.
  intros Hp Hk Hs Hver Hup Hcli order.
  exists (batch_events (pullImages_body env cli) order).
  destruct (pull_batch_events env cli order) as (H1 & H2 & H3).
  split_and!; try done.
  - unfold pullImages. rewrite decide_True by done. rewrite Hk, Hs.
    erewrite bind_done by apply cluster_Version_run. rewrite Hver.
    erewrite bind_done by exact Hup. cbv beta iota. rewrite Hcli.
    apply pull_batch_run.
  - by rewrite H2, pull_failures_logged.
  - rewrite H2. clear. induction order as [|kv l IH]; [done|].
    rewrite bind_cons, length_app, IH, filter_cons. unfold pull_log.
    destruct (pull_error env cli kv.2) eqn:E.
    + rewrite decide_True by done. done.
    + rewrite decide_False by (by intros [??]). done.
Qed.

(** ** What a pull and a push return *)

Lemma pull_error_eq env cli v :
  pull_error env cli v
  = match engine_ImagePull cli (GetE2EImage v) with
    | inl err => Some (ErrWrap err ("error pulling image: " +:+ GetE2EImage v))
    | inr out =>
        match DisplayJSONMessagesStream env out with
        | (Some err, _) => Some (ErrWrap err ("error pulling image: " +:+ GetE2EImage v))
        | (None, out') =>
            (λ err, ErrWrap err ("error pulling image: " +:+ GetE2EImage v))
            <$> end_error out'
        end
    end.
Proof.
  unfold pull_error, result_of, PullImage, cli_ImagePull, streamDockerMessages,
    mbind, M_bind, emit, mret, M_ret.
  destruct (engine_ImagePull cli (GetE2EImage v)) as [err|out]; [done|].
  destruct (DisplayJSONMessagesStream env out) as [[err|] out']; [done|].
  destruct (ReadAll_spec out') as (rs & ->). by destruct (end_error out').
Qed.

Lemma push_error_eq env cli d auth :
  push_error env cli d auth
  = match json_Marshal env auth with
    | inl err => Some (ErrWrap err "error marshaling username/password")
    | inr authBytes =>
        match engine_ImagePush cli (GetE2EImage d) (EncodeToString authBytes) with
        | inl err => Some (ErrWrap err ("error pushing image: " +:+ GetE2EImage d))
        | inr out =>
            match DisplayJSONMessagesStream env out with
            | (Some err, _) =>
                Some (ErrWrap err ("error uploading image: " +:+ GetE2EImage d))
            | (None, out') =>
                (λ err, ErrWrap err ("error uploading image: " +:+ GetE2EImage d))
                <$> end_error out'
            end
        end
    end.
Proof.
  unfold push_error, result_of, PushImage, cli_ImagePush, streamDockerMessages,
    mbind, M_bind, emit, mret, M_ret.
  destruct (json_Marshal env auth) as [err|authBytes]; [done|].
  destruct (engine_ImagePush cli _ _) as [err|out]; [done|].
  destruct (DisplayJSONMessagesStream env out) as [[err|] out']; [done|].
  destruct (ReadAll_spec out') as (rs & ->). by destruct (end_error out').
Qed.

(** X17: [PullImage] returns nil exactly when the engine accepts the
    request, the display of its progress reports no error and what is left
    of the stream ends with [io.EOF]; every error it returns is wrapped
    with the reference of the image, its cause being the cause of the
    error met. *)
Theorem PullImage_outcome env cli v :
  (pull_error env cli v = None
   ↔ ∃ out, engine_ImagePull cli (GetE2EImage v) = inr out
            ∧ (DisplayJSONMessagesStream env out).1 = None
            ∧ end_error (DisplayJSONMessagesStream env out).2 = None)
  ∧ (∀ e, pull_error env cli v = Some e →
       ∃ err, e = ErrWrap err ("error pulling image: " +:+ GetE2EImage v)
              ∧ Cause e = Cause err).
Proof.
  rewrite pull_error_eq. split.
  - destruct (engine_ImagePull cli (GetE2EImage v)) as [err|out].
    { split; [done|]. by intros (? & ? & _). }
    destruct (DisplayJSONMessagesStream env out) as [[err|] out'] eqn:E.
    { split; [done|]. intros (? & [= <-] & H & _). by rewrite E in H. }
    split.
    + intros H. exists out. rewrite E. simpl. split_and!; try done.
      by destruct (end_error out').
    + intros (? & [= <-] & _ & H). rewrite E in H. simpl in H. by rewrite H.
  - intros e.
    destruct (engine_ImagePull cli (GetE2EImage v)) as [err|out].
    { intros [= <-]. eauto. }
    destruct (DisplayJSONMessagesStream env out) as [[err|] out'].
    { intros [= <-]. eauto. }
    destruct (end_error out') as [err|]; [|done].
    intros [= <-]. eauto.
Qed.

(** X18: [PushImage] returns nil exactly when the credentials serialize, the
    engine accepts the request that carries their encoding, the display
    of its progress reports no error and what is left of the stream ends
    with [io.EOF].  An error of the request or of the upload names the
    reference of the image; an error of the serialization does not. *)
Theorem PushImage_outcome env cli d auth :
  (push_error env cli d auth = None
   ↔ ∃ authBytes out,
       json_Marshal env auth = inr authBytes
       ∧ engine_ImagePush cli (GetE2EImage d) (EncodeToString authBytes) = inr out
       ∧ (DisplayJSONMessagesStream env out).1 = None
       ∧ end_error (DisplayJSONMessagesStream env out).2 = None)
  ∧ (∀ e, push_error env cli d auth = Some e →
       ∃ err, Cause e = Cause err
              ∧ (e = ErrWrap err "error marshaling username/password"
                 ∨ e = ErrWrap err ("error pushing image: " +:+ GetE2EImage d)
                 ∨ e = ErrWrap err ("error uploading image: " +:+ GetE2EImage d))).
Proof.
  rewrite push_error_eq. split.
  - destruct (json_Marshal env auth) as [err|authBytes].
    { split; [done|]. by intros (? & ? & ? & _). }
    destruct (engine_ImagePush cli _ _) as [err|out] eqn:Hpush.
    { split; [done|]. intros (? & ? & [= <-] & H & _). by rewrite Hpush in H. }
    destruct (DisplayJSONMessagesStream env out) as [[err|] out'] eqn:E.
    { split; [done|]. intros (? & ? & [= <-] & H1 & H2 & _).
      rewrite Hpush in H1. injection H1 as <-. by rewrite E in H2. }
    split.
    + intros H. exists authBytes, out. rewrite E. simpl. split_and!; try done.
      by destruct (end_error out').
    + intros (? & ? & [= <-] & H1 & _ & H2).
      rewrite Hpush in H1. injection H1 as <-. rewrite E in H2. simpl in H2.
      by rewrite H2.
  - intros e.
    destruct (json_Marshal env auth) as [err|authBytes].
    { intros [= <-]. exists err. split; [done|]. by left. }
    destruct (engine_ImagePush cli _ _) as [err|out].
    { intros [= <-]. exists err. split; [done|]. right. by left. }
    destruct (DisplayJSONMessagesStream env out) as [[err|] out'].
    { intros [= <-]. exists err. split; [done|]. right. by right. }
    destruct (end_error out') as [err|]; [|done].
    intros [= <-]. exists err. split; [done|]. right. by right.
Qed.

(** ** The credentials of a push *)





(** ** Credentials that do not marshal *)

Lemma push_error_marshal env cli img auth e :
  json_Marshal env auth = inl e →
  push_error env cli img auth = Some (ErrWrap e "error marshaling username/password").
Proof.
  intros H. unfold push_error, result_of, PushImage. by rewrite H.
Qed.

(** X21: when the credentials cannot be serialized, the push batch still
    tags every image but asks the engine for no push at all; the failure
    is logged once for every image, and the batch runs to its end. *)
Theorem pushImages_marshal_failure
    env cli (privateImages : gmap string Config) auth (order : list (string * Config)) e w :
  json_Marshal env auth = inl e →
  ∃ t,
    forM_ order (pushImages_body env cli privateImages auth) w = (Done tt, add_trace t w)
    ∧ engine_calls t = tag_calls privateImages order
    ∧ Forall (λ kv, ErrWrap (ErrWrap e "error marshaling username/password")
                      ("couldn't push image: " +:+ GetE2EImage kv.2) ∈ logged t) order.
Proof.
  intros Hjson.
  exists (batch_events (pushImages_body env cli privateImages auth) order).
  split_and!.
  - apply push_batch_run.
  - rewrite push_batch_calls. unfold code_TagAndPush_calls, push_calls, tag_calls.
    rewrite Hjson. induction order as [|kv l IH]; [done|].
    by rewrite bind_cons, fmap_cons, IH.
  - apply Forall_forall. intros kv Hin.
    apply list_elem_of_split in Hin as (l1 & l2 & ->).
    rewrite batch_events_app, batch_events_cons, !logged_app, pushImages_body_logged.
    unfold push_log. rewrite (push_error_marshal _ _ _ _ _ Hjson). simpl.
    set_solver.
Qed.

(** ** The shape of the registry-auth value *)

Lemma decode_at_url_safe c i : decode_at c = Some i → url_safe c.
Proof.
  unfold decode_at, url_safe. cbv zeta.
  repeat case_decide; try done; intros _; lia.
Qed.

Lemma encode_at_url_safe i : (i < 64)%N → url_safe (encode_at i).
Proof.
  intros Hi. destruct (decode_sextet i Hi) as [H _]. by eapply decode_at_url_safe.
Qed.

Lemma padChar_url_safe : url_safe padChar.
Proof. unfold url_safe. cbv zeta. vm_compute. intuition discriminate. Qed.

(** X22: the registry-auth value of a push is made of whole groups of four
    characters, one group for every three bytes of the serialized
    credentials or part thereof, and holds only letters, digits, "-", "_"
    and the padding "=": never the "+" and "/" of the standard
    alphabet. *)
Theorem EncodeToString_shape s :
  String.length (EncodeToString s) = 4 * ((String.length s + 2) `div` 3)
  ∧ Forall url_safe (String.list_ascii_of_string (EncodeToString s)).
Proof.
  induction s as [|a|a b|a b c rest [IHl IHs]] using string_ind3.
  - split; [done|constructor].
  - split; [done|].
    unfold EncodeToString. cbn [String.list_ascii_of_string].
    repeat (apply Forall_cons; split);
      first [apply padChar_url_safe | apply Forall_nil_2 | apply encode_at_url_safe].
    all: rewrite land_63; apply N.mod_lt; done.
  - split; [done|].
    unfold EncodeToString. cbn [String.list_ascii_of_string].
    repeat (apply Forall_cons; split);
      first [apply padChar_url_safe | apply Forall_nil_2 | apply encode_at_url_safe].
    all: rewrite land_63; apply N.mod_lt; done.
  - split.
    + cbn [EncodeToString String.length]. rewrite IHl.
      replace (S (S (S (String.length rest))) + 2) with (String.length rest + 2 + 1 * 3)
        by lia.
      rewrite Nat.div_add by done. lia.
    + cbn [EncodeToString String.list_ascii_of_string].
      repeat (apply Forall_cons; split); try exact IHs.
      all: apply encode_at_url_safe; rewrite land_63; apply N.mod_lt; done.
Qed.

(** * Concrete runs *)

Ltac by_computation := apply (bool_decide_unpack _); vm_compute; reflexivity.

(** What the demonstration credentials encode to. *)
Example demo_RegistryAuth :
  EncodeToString (demo_json demo_auth)
  = "eyJ1c2VybmFtZSI6ImFkbWluIiwicGFzc3dvcmQiOiJzZWNyZXQifQ==".
Proof. vm_compute. reflexivity. Qed.

(** C1, the claim as stated fails: the disk takes three bytes, the copy
    fails on the first chunk of the export, and [SaveToTar] returns the
    copy error after that single read; the stream, which still holds a
    chunk and its end, is not read to end-of-stream. *)
Lemma SaveToTar_failed_copy_not_drained :
  let run := SaveToTar demo_engine ["k8s.gcr.io/conformance:v1.18.0"] "images.tar"
               demo_world in
  run.1 = Done (Some (ErrWrap (ErrNew "write images.tar: no space left on device")
                        (copy_failed_msg "images.tar")))
  ∧ reads (trace run.2) = [("abcd", None)]
  ∧ ¬ stream_drained (trace run.2).
Proof.
  split_and!.
  - vm_compute. reflexivity.
  - vm_compute. reflexivity.
  - intros [d Hd]. vm_compute in Hd. discriminate.
Qed.

(** C1, the amended claim at the same run. *)
Lemma SaveToTar_copy_outcome_witness :
  ∃ cerr out1 w2,
    io_Copy "images.tar" demo_stream
      (export_requested ["k8s.gcr.io/conformance:v1.18.0"] "images.tar" demo_world)
    = (Done (cerr, out1), w2)
    ∧ match cerr with
      | Some e =>
          SaveToTar demo_engine ["k8s.gcr.io/conformance:v1.18.0"] "images.tar" demo_world
          = (Done (Some (ErrWrap e (copy_failed_msg "images.tar"))), w2)
      | None =>
          stream_drained (trace w2)
          ∧ ∃ rs d x,
              SaveToTar demo_engine ["k8s.gcr.io/conformance:v1.18.0"] "images.tar"
                demo_world
              = (Done (if decide (x = EOF) then None
                       else Some (ErrWrap x "error exporting images")),
                 add_trace (EvRead <$> rs) w2)
              ∧ last rs = Some (d, Some x)
      end.
Proof.
  apply (SaveToTar_copy_outcome demo_engine ["k8s.gcr.io/conformance:v1.18.0"]
           "images.tar" demo_stream demo_world).
  - by_computation.
  - reflexivity.
Defined.

(** C10 at an engine that cannot be reached. *)
Lemma SaveToTar_export_error_leaves_file_witness :
  ∃ w',
    SaveToTar unreachable_engine ["k8s.gcr.io/conformance:v1.18.0"] "images.tar" demo_world
    = (Done (Some (ErrWrap (ErrNew "Cannot connect to the Docker daemon")
                     "error saving images to tar")), w')
    ∧ trace w' = trace demo_world
                 ++ [EvCreate "images.tar";
                     EvEngine (ImageSaveCall ["k8s.gcr.io/conformance:v1.18.0"])]
    ∧ fs w' !! "images.tar" = Some EmptyString
    ∧ (fs demo_world !! "images.tar" ≠ Some EmptyString → fs w' ≠ fs demo_world).
Proof.
  apply (SaveToTar_export_error_leaves_file unreachable_engine
           ["k8s.gcr.io/conformance:v1.18.0"] "images.tar"
           (ErrNew "Cannot connect to the Docker daemon") demo_world).
  - by_computation.
  - reflexivity.
Defined.







(** C8 at the demonstration credentials. *)
Lemma PushImage_RegistryAuth_witness :
  (∃ r rs,
     PushImage (demo_env range_forward) demo_engine busybox
       {| Username := "admin"; Password := "secret" |} demo_world
     = (Done r,
        add_trace (EvEngine (ImagePushCall (GetE2EImage busybox)
                               (EncodeToString (demo_json demo_auth)))
                   :: (EvRead <$> rs)) demo_world))
  ∧ DecodeString (EncodeToString (demo_json demo_auth)) = Some (demo_json demo_auth).
Proof.
  apply (PushImage_RegistryAuth (demo_env range_forward) demo_engine busybox
           "admin" "secret" (demo_json demo_auth) demo_world).
  reflexivity.
Defined.



(** C9 at an override file that exists. *)
Lemma listImages_ignores_override_contents_witness :
  listImages (demo_env range_forward) (demo_flags "repos.yaml") demo_world
  = listImages (demo_env range_forward) (without_override (demo_flags "repos.yaml"))
      (add_trace [EvStat "repos.yaml"] demo_world)
  ∧ ∃ r t,
      listImages (demo_env range_forward) (demo_flags "repos.yaml") demo_world
      = (r, add_trace (EvStat "repos.yaml" :: t) demo_world)
      ∧ (∀ p, EvReadFile p ∉ t)
      ∧ (∀ contents',
           listImages (demo_env range_forward) (demo_flags "repos.yaml")
             (with_file "repos.yaml" contents' demo_world)
           = (r, add_trace (EvStat "repos.yaml" :: t)
                   (with_file "repos.yaml" contents' demo_world))).
Proof.
  apply (listImages_ignores_override_contents (demo_env range_forward)
           (demo_flags "repos.yaml") "registry: myregistry.local" demo_world).
  - discriminate.
  - vm_compute. reflexivity.
Defined.

(** X2 at the demonstration export, on a disk with room for it. *)
Lemma SaveToTar_nil_means_complete_witness :
  fs (SaveToTar demo_engine ["k8s.gcr.io/conformance:v1.18.0"] "images.tar" roomy_world).2
    !! "images.tar"
  = Some (stream_bytes demo_stream).
Proof.
  apply (SaveToTar_nil_means_complete demo_engine ["k8s.gcr.io/conformance:v1.18.0"]
           "images.tar" demo_stream roomy_world).
  - by_computation.
  - reflexivity.
  - vm_compute. reflexivity.
Defined.



(** X5 at the demonstration cluster, on a disk with room for the export. *)
Lemma downloadImages_single_export_witness :
  ∃ r w' t,
    downloadImages (demo_env range_forward) (demo_flags EmptyString) roomy_world = (r, w')
    ∧ trace w' = trace (add_trace [EvVersion] roomy_world) ++ t
    ∧ engine_calls t
      = (if decide (GetTarFileName "v1.18.0" ∈ fs_denied (add_trace [EvVersion] roomy_world))
         then []
         else [ImageSaveCall (image_refs (range range_forward demo_upstream))])
    ∧ (∀ path, path ≠ GetTarFileName "v1.18.0" →
         fs w' !! path = fs (add_trace [EvVersion] roomy_world) !! path)
    ∧ (r = Done tt ∧ logged t = []
       ∧ (∃ out,
            engine_ImageSave demo_engine (image_refs (range range_forward demo_upstream))
            = inr out
            ∧ fs w' !! GetTarFileName "v1.18.0" = Some (stream_bytes out))
       ∨ r = Exited 1 ∧ ∃ err, logged t = [ErrWrap err "couldn't save images to tar"]).
Proof.
  apply (downloadImages_single_export (demo_env range_forward) (demo_flags EmptyString)
           "v1.18.0" demo_upstream demo_engine roomy_world
           (add_trace [EvVersion] roomy_world)).
  all: reflexivity.
Defined.

(** X6 at two consecutive versions. *)
Lemma GetTarFileName_distinct_witness :
  GetTarFileName "v1.17.0" ≠ GetTarFileName "v1.18.0".
Proof. apply (GetTarFileName_distinct "v1.17.0" "v1.18.0"). discriminate. Defined.

(** X8 at the override file of the private registry. *)
Lemma deleteImages_removes_resolved_set_witness :
  ∃ t,
    deleteImages removing_env (demo_flags "repos.yaml") demo_world
    = (Done tt, add_trace t (add_trace [EvVersion; EvReadFile "repos.yaml"] demo_world))
    ∧ engine_calls t = remove_calls (range (range_order removing_env) demo_private)
    ∧ length (engine_calls t) = size demo_private.
Proof.
  apply (deleteImages_removes_resolved_set removing_env (demo_flags "repos.yaml")
           "v1.18.0" demo_private removing_engine demo_world).
  all: reflexivity.
Defined.

(** X9 at a command line that gives an empty focus and an override file,
    and leaves the skip flag alone. *)
Lemma GetE2EConfig_overlays_flags_witness :
  GetE2EConfig (demo_env range_forward) "Conformance" focus_flagset demo_world
  = (Done (inr {| Focus := EmptyString; Skip := EmptyString; Parallel := "false";
                  CustomRegistries := "registry: myregistry.local" |}),
     add_trace [EvReadFile "repos.yaml"] demo_world).
Proof.
  destruct (GetE2EConfig_overlays_flags (demo_env range_forward) "Conformance"
              focus_flagset demo_world) as [_ Hfile].
  - by_computation.
  - apply (Hfile "registry: myregistry.local" {[ "registry" := "myregistry.local" ]}).
    + reflexivity.
    + vm_compute. reflexivity.
    + vm_compute. reflexivity.
Defined.

(** X12 at a plugin that is not supported, with an override file in place. *)
Lemma unsupported_plugin_refused_witness :
  pullImages (demo_env range_forward) systemd_flags demo_world
  = (Exited 1,
     add_trace [EvLogError (ErrNew ("Unsupported plugin: " +:+ "systemd-logs"))] demo_world)
  ∧ pushImages (demo_env range_forward) systemd_flags demo_world
    = (Exited 1,
       add_trace [EvLogError (ErrNew ("Unsupported plugin: " +:+ "systemd-logs"))]
         demo_world)
  ∧ listImages (demo_env range_forward) systemd_flags demo_world
    = (Exited 1,
       add_trace [EvStat "repos.yaml";
                  EvLogError (ErrNew ("Unsupported plugin: " +:+ "systemd-logs"))]
         demo_world).
Proof.
  destruct (unsupported_plugin_refused (demo_env range_forward) systemd_flags demo_world)
    as (Hpull & _ & Hpush & _ & _ & Hlist).
  - discriminate.
  - split_and!; [exact Hpull|exact Hpush|].
    apply Hlist; [discriminate|]. vm_compute. eauto.
Defined.


(** X14 at a docker daemon that cannot be reached. *)
Lemma docker_client_failure_aborts_witness :
  pullImages dockerless_env (demo_flags EmptyString) demo_world
  = (Exited 1,
     add_trace [EvLogError (ErrWrap (ErrNew "Cannot connect to the Docker daemon")
                              "couldn't init docker client")]
       (add_trace [EvVersion] demo_world))
  ∧ downloadImages dockerless_env (demo_flags EmptyString) demo_world
    = (Exited 1,
       add_trace [EvLogError (ErrWrap (ErrNew "Cannot connect to the Docker daemon")
                                "couldn't init docker client")]
         (add_trace [EvVersion] demo_world)).
Proof.
  destruct (docker_client_failure_aborts dockerless_env (demo_flags EmptyString) "v1.18.0"
              demo_upstream (ErrNew "Cannot connect to the Docker daemon") demo_world
              (add_trace [EvVersion] demo_world)) as [Hpull _].
  all: try reflexivity.
  apply Hpull. reflexivity.
Defined.

(** X15 at the demonstration cluster. *)
Lemma listImages_prints_every_reference_witness :
  ∃ t,
    listImages (demo_env range_forward) (demo_flags EmptyString) demo_world
    = (Done tt, add_trace t (add_trace [EvVersion] demo_world))
    ∧ printed t = list_lines (range (range_order (demo_env range_forward)) demo_upstream)
    ∧ length (printed t) = size demo_upstream
    ∧ logged t = [] ∧ engine_calls t = [].
Proof.
  apply (listImages_prints_every_reference (demo_env range_forward)
           (demo_flags EmptyString) "v1.18.0"
           {| rl_table := demo_table; rl_version := "v1.18.0" |} demo_upstream demo_world).
  all: reflexivity.
Defined.

(** X16 at the demonstration engine, which cannot pull one of the two images. *)
Lemma pullImages_logs_every_failure_witness :
  ∃ t,
    pullImages (demo_env range_forward) (demo_flags EmptyString) demo_world
    = (Done tt, add_trace t (add_trace [EvVersion] demo_world))
    ∧ engine_calls t = pull_calls (range range_forward demo_upstream)
    ∧ logged t = pull_failures (demo_env range_forward) demo_engine
                   (range range_forward demo_upstream)
    ∧ length (logged t)
      = length (filter (λ kv, is_Some (pull_error (demo_env range_forward) demo_engine kv.2))
                       (range range_forward demo_upstream))
    ∧ printed t = replicate (length (range range_forward demo_upstream)) ("########" +:+ nl).
Proof.
  apply (pullImages_logs_every_failure (demo_env range_forward) (demo_flags EmptyString)
           "v1.18.0" demo_upstream demo_engine demo_world).
  all: reflexivity.
Defined.



(** X21 at a marshaller that fails. *)
Lemma pushImages_marshal_failure_witness :
  ∃ t,
    forM_ [("conformance", conformance); ("busybox", busybox)]
      (pushImages_body unmarshallable_env demo_engine demo_private demo_auth) demo_world
    = (Done tt, add_trace t demo_world)
    ∧ engine_calls t
      = tag_calls demo_private [("conformance", conformance); ("busybox", busybox)]
    ∧ Forall (λ kv, ErrWrap (ErrWrap (ErrNew "json: unsupported value")
                               "error marshaling username/password")
                      ("couldn't push image: " +:+ GetE2EImage kv.2) ∈ logged t)
        [("conformance", conformance); ("busybox", busybox)].
Proof.
  apply (pushImages_marshal_failure unmarshallable_env demo_engine demo_private demo_auth
           [("conformance", conformance); ("busybox", busybox)]
           (ErrNew "json: unsupported value") demo_world).
  reflexivity.
Defined.

(** The delete batch at the engine that holds one of the two images. *)
Example deleteImages_batch_demo :
  let run := forM_ (range range_forward demo_private) (deleteImages_body removing_engine)
               init_world in
  run.1 = Done tt
  ∧ printed (trace run.2)
    = ["########" +:+ nl;
       "Deleted: " +:+ nl;
       "Untagged: myregistry.local/busybox:v1.18.0" +:+ nl;
       "Deleted: sha256:6d5fcfe5ff17" +:+ nl;
       "########" +:+ nl]
  ∧ logged (trace run.2)
    = [ErrWrap (ErrWrap (ErrNew "No such image")
                  "error deleting image: myregistry.local/conformance:v1.18.0")
         "couldn't delete image: myregistry.local/conformance:v1.18.0"].
Proof. split_and!; vm_compute; reflexivity. Qed.
